(** * ThreadPool.cpp: a fixed-size pool of worker threads

    A shallow embedding of [ThreadPool.cpp]: the sample functions and the
    table [funcs], the records [evalStruct], [ThreadManager] and [ThreadPool],
    the constructor, [ThreadPool::evaluate] as a sequential function, and an
    interleaving semantics in which every thread (a caller inside [evaluate],
    a worker inside [ThreadManager::execute]) advances one statement at a
    time.  The [LOG] macro prints under the global mutex [g_lockCout], which no
    thread keeps across another statement, and the two [sleep_for] calls only
    pass time: both are left out of the interleaving semantics.  [dump], which
    only prints, is embedded with the text it sends to [std::cout]. *)

From stdpp Require Import base tactics option list numbers strings pretty.

(** ** C++ [int] *)

Module Int.

Definition min : Z := (- 2 ^ 31)%Z.
Definition max : Z := (2 ^ 31 - 1)%Z.

Definition in_range (z : Z) : bool := ((min <=? z) && (z <=? max))%Z.

(** Signed overflow is undefined behaviour: no value. *)
Definition of_Z (z : Z) : option Z := if in_range z then Some z else None.

End Int.

(** ** The sample functions (lines 104-119) and the table [funcs] *)

Definition func_t : Type := Z → Z → option Z.

Definition myFunc_1 : func_t := λ a b, Int.of_Z (a + b)%Z.
Definition myFunc_2 : func_t := λ a b, Int.of_Z (a - b)%Z.
Definition myFunc_3 : func_t := λ a b, Int.of_Z (a * b)%Z.
(** [a / b] on [int] truncates towards zero; a zero divisor is undefined. *)
Definition myFunc_4 : func_t := λ a b,
  if (b =? 0)%Z then None else Int.of_Z (a ÷ b)%Z.

Definition funcs : list func_t := [myFunc_1; myFunc_2; myFunc_3; myFunc_4].
Definition nFuncs : nat := length funcs.

Definition nEvaluations : nat := 11.
Definition nThreads : Z := 4.

(** ** Caller-owned evaluation records (lines 121-127) *)

Record evalStruct := EvalStruct {
  param1 : Z;
  param2 : Z;
  result : Z;
  readyFlag : bool;
  func : func_t
}.

Definition write_result (v : Z) (e : evalStruct) : evalStruct :=
  EvalStruct (param1 e) (param2 e) v (readyFlag e) (func e).
Definition write_readyFlag (b : bool) (e : evalStruct) : evalStruct :=
  EvalStruct (param1 e) (param2 e) (result e) b (func e).

(** ** Tasks: the closure pushed by [evaluate] (lines 59-62)

    The capture list is [param1, param2, &result, &ready, f].  The two
    references point into the caller's vector of records: [cap_result] is the
    index of the record whose [result] field is referenced, [cap_ready] the
    index of the record whose [readyFlag] is referenced. *)

Record task := Task {
  cap_f : func_t;
  cap_param1 : Z;
  cap_param2 : Z;
  cap_result : nat;
  cap_ready : nat
}.

(** Line 60: [result = f(param1, param2)]. *)
Definition body_result (t : task) (mem : list evalStruct) : option (list evalStruct) :=
  v ← cap_f t (cap_param1 t) (cap_param2 t);
  Some (alter (write_result v) (cap_result t) mem).

(** Line 61: [ready = true]. *)
Definition body_ready (t : task) (mem : list evalStruct) : list evalStruct :=
  alter (write_readyFlag true) (cap_ready t) mem.

(** The whole body, run to completion. *)
Definition run_task (t : task) (mem : list evalStruct) : option (list evalStruct) :=
  body_ready t <$> body_result t mem.

(** ** Threads *)

Inductive thread_id :=
  | Caller (c : nat)
  | Worker (w : nat).

Global Instance thread_id_eq_dec : EqDecision thread_id.
Proof. solve_decision. Defined.

(** Where a worker thread stands in [ThreadManager::execute] (lines 86-99). *)
Inductive exec_pc :=
  | XLock                (* 88: unique_lock locker(m_mxQueue) *)
  | XEmpty               (* 89: while (functionsQueue.empty()) *)
  | XWait                (* 90: inside m_cvNewFunc.wait(locker), mutex released *)
  | XFront               (* 92-94: sleep, log, f = functionsQueue.front() *)
  | XResult (f : task)   (* 95, f() at line 60: result = f(param1, param2) *)
  | XReady (f : task)    (* 95, f() at line 61: ready = true *)
  | XPop                 (* 96: functionsQueue.pop() *)
  | XFree                (* 97: free = true *)
  | XUnlock              (* 98: end of the loop body, locker destroyed *)
  | XAbort.              (* undefined behaviour reached *)

(** Where a caller stands in [ThreadPool::evaluate] (lines 52-68), called
    from the retry loop of [main] (lines 179-185). *)
Inductive eval_pc :=
  | ECall                       (* 182: call evaluate on the next request *)
  | EScan (i : nat)             (* 54-55: i < m_nThreads, at(i)->free *)
  | ELock (i : nat)             (* 56: unique_lock locker(at(i)->m_mxQueue) *)
  | EFlip (i : nat)             (* 57-58: at(i)->free = false *)
  | EPush (i : nat)             (* 59-62: at(i)->functionsQueue.push(...) *)
  | ENotify (i : nat)           (* 63: at(i)->m_cvNewFunc.notify_one() *)
  | EBreak (i : nat)            (* 64: break, locker destroyed *)
  | EReturn (scheduled : bool)  (* 67: return scheduled *)
  | EThrow.                     (* std::out_of_range out of at() *)

(** ** [ThreadManager] (lines 73-101)

    [m_mxQueue] is the owner of the mutex, if any.  [m_cvNewFunc] has no
    field: the only thread that ever waits on it is the worker itself, at
    [XWait], and a condition wait may wake up spuriously, so a waiting worker
    may always try to take the mutex again.  [exec_at] is the position of the
    detached thread started by the constructor. *)

Record ThreadManager := {
  m_mxQueue : option thread_id;
  functionsQueue : list task;
  free : bool;
  m_id : Z;
  exec_at : exec_pc
}.

Definition set_mxQueue (o : option thread_id) (m : ThreadManager) : ThreadManager :=
  {| m_mxQueue := o; functionsQueue := functionsQueue m; free := free m;
     m_id := m_id m; exec_at := exec_at m |}.
Definition set_functionsQueue (q : list task) (m : ThreadManager) : ThreadManager :=
  {| m_mxQueue := m_mxQueue m; functionsQueue := q; free := free m;
     m_id := m_id m; exec_at := exec_at m |}.
Definition set_free (b : bool) (m : ThreadManager) : ThreadManager :=
  {| m_mxQueue := m_mxQueue m; functionsQueue := functionsQueue m; free := b;
     m_id := m_id m; exec_at := exec_at m |}.
Definition set_exec_at (pc : exec_pc) (m : ThreadManager) : ThreadManager :=
  {| m_mxQueue := m_mxQueue m; functionsQueue := functionsQueue m; free := free m;
     m_id := m_id m; exec_at := pc |}.

(** Lines 81-84: [m_id(id), free(true)], an empty queue, an unlocked mutex,
    and a detached thread standing at the top of [execute]. *)
Definition new_ThreadManager (id : Z) : ThreadManager :=
  {| m_mxQueue := None; functionsQueue := []; free := true; m_id := id;
     exec_at := XLock |}.

(** ** [ThreadPool] (lines 39-102) *)

Record ThreadPool := {
  m_nThreads : Z;
  m_vpThreads : list ThreadManager
}.

Definition set_vpThreads (v : list ThreadManager) (p : ThreadPool) : ThreadPool :=
  {| m_nThreads := m_nThreads p; m_vpThreads := v |}.

(** *** The constructor (lines 43-49) *)

Inductive ctor_result :=
  | Constructed (p : ThreadPool)
  | Throw_length_error.

(** Lines 46-48: [k] iterations remain, the counter is [i]. *)
Fixpoint ctor_loop (k : nat) (i : Z) (v : list ThreadManager) : list ThreadManager :=
  match k with
  | O => v
  | S k' => ctor_loop k' (i + 1)%Z (v ++ [new_ThreadManager i])
  end.

Section Platform.

(** The width of [std::size_t] and [std::vector<ThreadManager*>::max_size()]
    belong to the C++ implementation, not to this repository. *)
Variable size_bits : Z.
Variable vector_max_size : Z.

(** The conversion of the [int] argument of [reserve] to [size_type]. *)
Definition to_size_t (n : Z) : Z := (n mod 2 ^ size_bits)%Z.

(** [reserve(n)] throws [std::length_error] when [n > max_size()]. *)
Definition ThreadPool_ctor (nThreads : Z) : ctor_result :=
  if (vector_max_size <? to_size_t nThreads)%Z then Throw_length_error
  else Constructed
    {| m_nThreads := nThreads;
       m_vpThreads := ctor_loop (Z.to_nat nThreads) 0 [] |}.

End Platform.

(** *** [evaluate], run alone (lines 52-68)

    A call that nobody interleaves with either returns, or stops at a mutex
    somebody else owns, or leaves through the exception of [at]. *)

Inductive evaluate_result :=
  | Return (scheduled : bool) (p : ThreadPool)
  | Blocked (i : nat)
  | Throw_out_of_range.

(** The closure built at lines 59-62. *)
Definition make_task (f : func_t) (p1 p2 : Z) (res rdy : nat) : task :=
  Task f p1 p2 res rdy.

(** The loop of line 54: [k] iterations remain, the counter is [i]. *)
Fixpoint evaluate_loop (k : nat) (i : nat) (t : task) (p : ThreadPool) : evaluate_result :=
  match k with
  | O => Return false p
  | S k' =>
      match m_vpThreads p !! i with
      | None => Throw_out_of_range
      | Some m =>
          if free m then
            match m_mxQueue m with
            | Some _ => Blocked i
            | None =>
                Return true
                  (set_vpThreads
                     (<[i := set_functionsQueue (functionsQueue m ++ [t]) (set_free false m)]>
                        (m_vpThreads p)) p)
            end
          else evaluate_loop k' (S i) t p
      end
  end.

Definition evaluate (f : func_t) (p1 p2 : Z) (res rdy : nat) (p : ThreadPool) : evaluate_result :=
  evaluate_loop (Z.to_nat (m_nThreads p)) 0 (make_task f p1 p2 res rdy) p.

(** ** The interleaving semantics *)

(** A caller: the requests it still has to place, as in the loop of [main]
    (lines 179-185), which calls [evaluate] again until it returns [true],
    and its position. *)
Record caller := {
  pending : list task;
  eval_at : eval_pc
}.

Record state := {
  pool : ThreadPool;
  callers : list caller;
  vEvals : list evalStruct
}.

(** One statement of [execute] by worker [w]; [None] when the thread cannot
    move (the mutex is taken, or the thread is dead). *)
Definition execute_step (w : nat) (m : ThreadManager) (mem : list evalStruct)
  : option (ThreadManager * list evalStruct) :=
  match exec_at m with
  | XLock =>
      match m_mxQueue m with
      | None => Some (set_exec_at XEmpty (set_mxQueue (Some (Worker w)) m), mem)
      | Some _ => None
      end
  | XEmpty =>
      match functionsQueue m with
      | [] => Some (set_exec_at XWait (set_mxQueue None m), mem)
      | _ :: _ => Some (set_exec_at XFront m, mem)
      end
  | XWait =>
      match m_mxQueue m with
      | None => Some (set_exec_at XEmpty (set_mxQueue (Some (Worker w)) m), mem)
      | Some _ => None
      end
  | XFront =>
      match functionsQueue m with
      | [] => Some (set_exec_at XAbort m, mem)
      | f :: _ => Some (set_exec_at (XResult f) m, mem)
      end
  | XResult f =>
      match body_result f mem with
      | Some mem' => Some (set_exec_at (XReady f) m, mem')
      | None => Some (set_exec_at XAbort m, mem)
      end
  | XReady f => Some (set_exec_at XPop m, body_ready f mem)
  | XPop =>
      match functionsQueue m with
      | [] => Some (set_exec_at XAbort m, mem)
      | _ :: q => Some (set_exec_at XFree (set_functionsQueue q m), mem)
      end
  | XFree => Some (set_exec_at XUnlock (set_free true m), mem)
  | XUnlock => Some (set_exec_at XLock (set_mxQueue None m), mem)
  | XAbort => None
  end.

Definition set_eval_at (pc : eval_pc) (cl : caller) : caller :=
  {| pending := pending cl; eval_at := pc |}.

(** [m_vpThreads.at(i)] followed by an update of the manager it returns. *)
Definition at_manager (i : nat) (cl : caller) (p : ThreadPool)
    (k : ThreadManager → option (eval_pc * ThreadManager)) : option (caller * ThreadPool) :=
  match m_vpThreads p !! i with
  | None => Some (set_eval_at EThrow cl, p)
  | Some m =>
      '(pc, m') ← k m;
      Some (set_eval_at pc cl, set_vpThreads (<[i := m']> (m_vpThreads p)) p)
  end.

(** One statement of caller [c]. *)
Definition evaluate_step (c : nat) (cl : caller) (p : ThreadPool)
  : option (caller * ThreadPool) :=
  match eval_at cl with
  | ECall =>
      match pending cl with
      | [] => None
      | _ :: _ => Some (set_eval_at (EScan 0) cl, p)
      end
  | EScan i =>
      if (Z.of_nat i <? m_nThreads p)%Z then
        at_manager i cl p (λ m,
          Some (if free m then ELock i else EScan (S i), m))
      else Some (set_eval_at (EReturn false) cl, p)
  | ELock i =>
      at_manager i cl p (λ m,
        match m_mxQueue m with
        | None => Some (EFlip i, set_mxQueue (Some (Caller c)) m)
        | Some _ => None
        end)
  | EFlip i => at_manager i cl p (λ m, Some (EPush i, set_free false m))
  | EPush i =>
      at_manager i cl p (λ m,
        match pending cl with
        | [] => None
        | t :: _ => Some (ENotify i, set_functionsQueue (functionsQueue m ++ [t]) m)
        end)
  | ENotify i => at_manager i cl p (λ m, Some (EBreak i, m))
  | EBreak i =>
      Some (set_eval_at (EReturn true) cl,
            set_vpThreads (alter (set_mxQueue None) i (m_vpThreads p)) p)
  | EReturn true => Some ({| pending := tail (pending cl); eval_at := ECall |}, p)
  | EReturn false => Some (set_eval_at ECall cl, p)
  | EThrow => None
  end.

(** Worker [w] leaves its manager as [m] and the records as [mem]. *)
Definition update_worker (w : nat) (m : ThreadManager) (mem : list evalStruct)
    (s : state) : state :=
  {| pool := set_vpThreads (<[w := m]> (m_vpThreads (pool s))) (pool s);
     callers := callers s;
     vEvals := mem |}.

Definition step (th : thread_id) (s : state) : option state :=
  match th with
  | Worker w =>
      m ← m_vpThreads (pool s) !! w;
      '(m', mem') ← execute_step w m (vEvals s);
      Some (update_worker w m' mem' s)
  | Caller c =>
      cl ← callers s !! c;
      '(cl', p') ← evaluate_step c cl (pool s);
      Some {| pool := p'; callers := <[c := cl']> (callers s); vEvals := vEvals s |}
  end.

(** A schedule names the thread that moves next; a thread that cannot move
    leaves the state as it is. *)
Definition run (sched : list thread_id) (s : state) : state :=
  foldl (λ s th, default s (step th s)) s sched.

(** The state right after the pool [p] was constructed, with one caller per
    list of requests. *)
Definition start (p : ThreadPool) (reqs : list (list task)) (mem : list evalStruct) : state :=
  {| pool := p;
     callers := (λ r, {| pending := r; eval_at := ECall |}) <$> reqs;
     vEvals := mem |}.

(** The pool of [n] workers as lines 46-48 build it. *)
Definition fresh_pool (n : nat) : ThreadPool :=
  {| m_nThreads := Z.of_nat n; m_vpThreads := ctor_loop n 0 [] |}.

(** ** [main] (lines 167-193) *)

(** Lines 171-173; [i % nFuncs] is below [nFuncs], so the table always has
    the entry. *)
Definition vEvals_init : list evalStruct :=
  (λ i : nat,
     EvalStruct (2 * Z.of_nat i) (Z.of_nat i) 0 false
       (default myFunc_1 (funcs !! (i mod nFuncs)))) <$> seq 0 nEvaluations.

(** The arguments of the call of line 182 for record [i]. *)
Definition request (i : nat) (e : evalStruct) : task :=
  make_task (func e) (param1 e) (param2 e) i i.

Definition main_requests : list task := imap request vEvals_init.

(** Line 175: the pool of [nThreads] workers. *)
Definition main_pool : ThreadPool := fresh_pool (Z.to_nat nThreads).

Definition main_start : state := start main_pool [main_requests] vEvals_init.

(** ** Vocabulary of the properties *)

(** The pool's counter agrees with its vector, as after construction. *)
Definition pool_wf (p : ThreadPool) : Prop :=
  m_nThreads p = Z.of_nat (length (m_vpThreads p)).

(** What line 57 and line 59 do to the chosen manager. *)
Definition claim (t : task) (m : ThreadManager) : ThreadManager :=
  set_functionsQueue (functionsQueue m ++ [t]) (set_free false m).

(** The first manager whose flag is set, with its ordinal. *)
Definition first_free (v : list ThreadManager) : option (nat * ThreadManager) :=
  list_find (λ m, free m = true) v.

(** A task body is running on the worker: its thread is inside [f()]. *)
Definition executing (m : ThreadManager) : bool :=
  match exec_at m with XResult _ | XReady _ => true | _ => false end.

(** The positions of [execute] at which the worker owns its mutex: all but
    the top of the loop and the inside of the wait. *)
Definition exec_holds (pc : exec_pc) : bool :=
  match pc with XLock | XWait => false | _ => true end.

(** The positions of [evaluate] inside the scope of [locker], with the
    ordinal of the worker whose mutex is owned. *)
Definition eval_holds (pc : eval_pc) : option nat :=
  match pc with
  | EFlip i | EPush i | ENotify i | EBreak i => Some i
  | _ => None
  end.

(** The positions of a worker that has no task in hand. *)
Definition exec_idle (pc : exec_pc) : bool :=
  match pc with XLock | XEmpty | XWait | XUnlock => true | _ => false end.

(** The positions of a worker whose queue holds the one task [t]. *)
Definition exec_busy (t : task) (pc : exec_pc) : Prop :=
  match pc with
  | XLock | XEmpty | XWait | XFront | XPop | XAbort => True
  | XResult f | XReady f => f = t
  | XFree | XUnlock => False
  end.

(** Who owns which mutex. *)
Record lock_inv (s : state) : Prop := {
  lock_worker : ∀ w m, m_vpThreads (pool s) !! w = Some m →
     exec_holds (exec_at m) = true → m_mxQueue m = Some (Worker w);
  lock_caller : ∀ c cl i m, callers s !! c = Some cl →
     eval_holds (eval_at cl) = Some i →
     m_vpThreads (pool s) !! i = Some m → m_mxQueue m = Some (Caller c)
}.

(** The flag, the queue and the two positions, when one thread dispatches. *)
Record flag_inv (s : state) : Prop := {
  flag_single : length (callers s) = 1;
  flag_free : ∀ w m, m_vpThreads (pool s) !! w = Some m → free m = true →
     functionsQueue m = [] ∧ exec_idle (exec_at m) = true;
  flag_busy : ∀ cl w m, callers s !! 0 = Some cl →
     m_vpThreads (pool s) !! w = Some m → free m = false →
     (functionsQueue m = [] ∧ (exec_at m = XFree ∨ eval_at cl = EPush w)) ∨
     (∃ t, functionsQueue m = [t] ∧ exec_busy t (exec_at m));
  flag_read : ∀ cl w m, callers s !! 0 = Some cl →
     m_vpThreads (pool s) !! w = Some m →
     eval_at cl = ELock w ∨ eval_at cl = EFlip w → free m = true;
  flag_flipped : ∀ cl w m, callers s !! 0 = Some cl →
     m_vpThreads (pool s) !! w = Some m →
     eval_at cl = EPush w → free m = false ∧ functionsQueue m = []
}.

(** The result slot of [t] holds the value of its function. *)
Definition result_written (t : task) (mem : list evalStruct) : Prop :=
  ∃ v, cap_f t (cap_param1 t) (cap_param2 t) = Some v ∧
       result <$> mem !! cap_result t = Some v.

(** ... and its ready flag is set. *)
Definition task_done (t : task) (mem : list evalStruct) : Prop :=
  result_written t mem ∧ readyFlag <$> mem !! cap_ready t = Some true.

(** Tasks that share a result slot store the same value in it. *)
Definition compatible (all : list task) : Prop :=
  ∀ t t', t ∈ all → t' ∈ all → cap_result t = cap_result t' →
    cap_f t (cap_param1 t) (cap_param2 t) =
    cap_f t' (cap_param1 t') (cap_param2 t').

Definition queued (ws : list ThreadManager) (t : task) : Prop :=
  ∃ w m, ws !! w = Some m ∧ t ∈ functionsQueue m.

Definition waiting (cs : list caller) (t : task) : Prop :=
  ∃ c cl, cs !! c = Some cl ∧ t ∈ pending cl.

(** What a worker's position says about the front of its queue. *)
Definition exec_ok (mem : list evalStruct) (m : ThreadManager) : Prop :=
  match exec_at m with
  | XResult t => ∃ q, functionsQueue m = t :: q
  | XReady t => (∃ q, functionsQueue m = t :: q) ∧ result_written t mem
  | XPop => ∃ t q, functionsQueue m = t :: q ∧ task_done t mem
  | _ => True
  end.

(** The positions of [evaluate] after the push of line 59. *)
Definition eval_pushed (pc : eval_pc) : bool :=
  match pc with ENotify _ | EBreak _ | EReturn true => true | _ => false end.

(** Every task is with a caller, in a queue, or done. *)
Record task_inv (all : list task) (s : state) : Prop := {
  task_range : ∀ t, t ∈ all →
     cap_result t < length (vEvals s) ∧ cap_ready t < length (vEvals s);
  task_pending : ∀ t, waiting (callers s) t → t ∈ all;
  task_queue : ∀ t, queued (m_vpThreads (pool s)) t → t ∈ all;
  task_track : ∀ t, t ∈ all →
     waiting (callers s) t ∨ queued (m_vpThreads (pool s)) t ∨
     task_done t (vEvals s);
  task_head : ∀ c cl t r, callers s !! c = Some cl → pending cl = t :: r →
     eval_pushed (eval_at cl) = true →
     queued (m_vpThreads (pool s)) t ∨ task_done t (vEvals s);
  task_exec : ∀ w m, m_vpThreads (pool s) !! w = Some m → exec_ok (vEvals s) m
}.

(** What a worker's position says about its queue, whoever dispatches. *)
Definition front_ok (m : ThreadManager) : Prop :=
  match exec_at m with
  | XResult f | XReady f => ∃ q, functionsQueue m = f :: q
  | XFront | XPop => functionsQueue m ≠ []
  | XAbort =>
      ∃ f q, functionsQueue m = f :: q ∧
             cap_f f (cap_param1 f) (cap_param2 f) = None
  | _ => True
  end.

Definition front_inv (s : state) : Prop :=
  ∀ w m, m_vpThreads (pool s) !! w = Some m → front_ok m.

(** The worker a caller is dealing with, past the scan. *)
Definition eval_index (pc : eval_pc) : option nat :=
  match pc with
  | ELock i | EFlip i | EPush i | ENotify i | EBreak i => Some i
  | _ => None
  end.

(** [at] stays within the vector. *)
Record bounds_inv (s : state) : Prop := {
  bounds_wf : pool_wf (pool s);
  bounds_index : ∀ c cl i, callers s !! c = Some cl →
     eval_index (eval_at cl) = Some i → i < length (m_vpThreads (pool s));
  bounds_no_throw : ∀ c cl, callers s !! c = Some cl → eval_at cl ≠ EThrow
}.

(** Tasks that share a ready flag share the result slot. *)
Definition paired (all : list task) : Prop :=
  ∀ t t', t ∈ all → t' ∈ all → cap_ready t = cap_ready t' →
    cap_result t = cap_result t'.

(** A set ready flag comes with the stored result. *)
Definition ready_inv (all : list task) (s : state) : Prop :=
  ∀ t, t ∈ all → readyFlag <$> vEvals s !! cap_ready t = Some true →
    result_written t (vEvals s).

(** A caller, and the state in which caller [c] and the pool are replaced. *)
Definition caller_at (pend : list task) (pc : eval_pc) : caller :=
  {| pending := pend; eval_at := pc |}.

Definition with_caller (c : nat) (cl : caller) (p : ThreadPool) (s : state) : state :=
  {| pool := p; callers := <[c := cl]> (callers s); vEvals := vEvals s |}.

(** Every caller has placed all its requests. *)
Definition finished (s : state) : bool :=
  forallb (λ cl, match pending cl with [] => true | _ :: _ => false end)
    (callers s).

(** Every worker's queue is empty. *)
Definition drained (s : state) : bool :=
  forallb (λ m, match functionsQueue m with [] => true | _ :: _ => false end)
    (m_vpThreads (pool s)).

(** *** Scenarios *)

(** One worker, one caller with one request [3 + 4]. *)
Definition one_task : task := make_task myFunc_1 3 4 0 0.
Definition one_record : list evalStruct := [EvalStruct 3 4 0 false myFunc_1].
Definition one_start : state := start (fresh_pool 1) [[one_task]] one_record.

(** The caller alone, up to and including the statement of line 57. *)
Definition until_flipped : list thread_id := replicate 4 (Caller 0).
(** The whole call of [evaluate], then the worker up to line 94. *)
Definition until_body : list thread_id :=
  replicate 7 (Caller 0) ++ replicate 3 (Worker 0).

(** One worker, two callers with one request each. *)
Definition race_task_0 : task := make_task myFunc_1 3 4 0 0.
Definition race_task_1 : task := make_task myFunc_2 9 5 1 1.
Definition race_records : list evalStruct :=
  [EvalStruct 3 4 0 false myFunc_1; EvalStruct 9 5 0 false myFunc_2].
Definition race_start : state :=
  start (fresh_pool 1) [[race_task_0]; [race_task_1]] race_records.

(** Both callers read the flag of worker 0 (line 55) before either takes
    the mutex (line 56). *)
Definition race_reads : list thread_id := [Caller 0; Caller 1; Caller 0; Caller 1].
(** Then each runs lines 56-67. *)
Definition race_schedule : list thread_id :=
  race_reads ++ replicate 5 (Caller 0) ++ replicate 5 (Caller 1).
(** Then the worker serves the first task: one full iteration. *)
Definition race_then_serve : list thread_id :=
  race_schedule ++ replicate 8 (Worker 0).

(** [main] and the four workers taking turns. *)
Definition round_robin (k : nat) : list thread_id :=
  concat (replicate k [Caller 0; Worker 0; Worker 1; Worker 2; Worker 3]).



Definition busy_pool : ThreadPool :=
  {| m_nThreads := 2;
     m_vpThreads := [set_free false (new_ThreadManager 0);
                     set_free false (new_ThreadManager 1)] |}.

(** The results and ready flags [main] ends with. *)
Definition main_expected : list (Z * bool) :=
  [(0, true); (1, true); (8, true); (2, true); (12, true); (5, true);
   (72, true); (2, true); (24, true); (9, true); (200, true)]%Z.

(** *** The claims of the specification that the code does not meet *)

(** The invariant of the data model, read at every statement. *)
Definition availability_iff (s : state) : Prop :=
  ∀ w m, m_vpThreads (pool s) !! w = Some m →
    free m = true ↔ functionsQueue m = [] ∧ executing m = false.

(** No task body runs while its worker owns the queue mutex. *)
Definition body_runs_unlocked (s : state) : Prop :=
  ∀ w m, m_vpThreads (pool s) !! w = Some m →
    executing m = true → m_mxQueue m ≠ Some (Worker w).


(** Slot 3 of the demo is a multiplication and ends up holding 18. *)
Definition slot_3_multiplies (s : state) : Prop :=
  func <$> vEvals_init !! 3 = Some myFunc_3 ∧
  result <$> vEvals s !! 3 = Some 18%Z.

(** *** Vocabulary of the further properties *)

(** Who a taken mutex belongs to: its own worker, inside the scope of its
    [locker], or a caller inside the scope of the [locker] of line 56. *)
Definition owner_ok (cs : list caller) (w : nat) (m : ThreadManager) : Prop :=
  match m_mxQueue m with
  | None => True
  | Some (Worker w') => w' = w ∧ exec_holds (exec_at m) = true
  | Some (Caller c) =>
      ∃ cl, cs !! c = Some cl ∧ eval_holds (eval_at cl) = Some w
  end.

(** ... and a caller inside [evaluate] still has the request it is placing. *)
Record owner_inv (s : state) : Prop := {
  owner_known : ∀ w m, m_vpThreads (pool s) !! w = Some m →
     owner_ok (callers s) w m;
  owner_pending : ∀ c cl, callers s !! c = Some cl →
     eval_at cl = ECall ∨ pending cl ≠ []
}.

(** Every task a caller or a queue holds is one of the requests [all]. *)
Record origin_inv (all : list task) (s : state) : Prop := {
  origin_pending : ∀ c cl t, callers s !! c = Some cl → t ∈ pending cl → t ∈ all;
  origin_queue : ∀ w m t, m_vpThreads (pool s) !! w = Some m →
     t ∈ functionsQueue m → t ∈ all
}.

(** The fields of a record that [dump] prints. *)
Definition shown (e : evalStruct) : Z * Z * Z * bool :=
  (param1 e, param2 e, result e, readyFlag e).

(** The fields of a record that no thread of the pool writes. *)
Definition inputs (e : evalStruct) : Z * Z * func_t :=
  (param1 e, param2 e, func e).

(** The tasks of [reqs] run one after the other. *)
Definition run_tasks (reqs : list task) (mem : list evalStruct)
  : option (list evalStruct) :=
  foldl (λ o t, o ≫= run_task t) (Some mem) reqs.

(** The caller runs one whole successful call of [evaluate] (lines 182 and
    54-67), then worker 0 one whole iteration of its loop (lines 88-98); and
    that, [k] times over. *)
Definition call_then_serve : list thread_id :=
  replicate 8 (Caller 0) ++ replicate 8 (Worker 0).

Definition serve_in_turn (k : nat) : list thread_id :=
  concat (replicate k call_then_serve).

(** ** [dump] (lines 139-165)

    Every statement of [dump] is one [LOG]: it prints one piece of text with
    [g_lockCout] held.  [printed A] is the text sent to [std::cout] so far,
    one string per [LOG], with the value computed, or nothing when the
    statement left through the [std::out_of_range] of [at]. *)

Definition printed (A : Type) : Type := (list string * option A)%type.

Global Instance printed_ret : MRet printed := λ A x, ([], Some x).
Global Instance printed_bind : MBind printed := λ A B k x,
  match x with
  | (out, Some a) => let '(out', b) := k a in (out ++ out', b)
  | (out, None) => (out, None)
  end.

Definition LOG (text : string) : printed unit := ([text], Some tt).
Definition throw_out_of_range {A} : printed A := ([], None).

Definition titleWidth : nat := 12.
Definition valWidth : nat := 4.

Fixpoint spaces (n : nat) : string :=
  match n with
  | O => EmptyString
  | S n' => " " +:+ spaces n'
  end.

(** [std::setw(w)] before one insertion: the text is padded on the left with
    the fill character up to [w] characters, and is never cut. *)
Definition setw (w : nat) (text : string) : string :=
  spaces (w - String.length text) +:+ text.

(** [operator<<] on an [int] and on a [bool] ([boolalpha] is not set). *)
Definition show_int (z : Z) : string := pretty z.
Definition show_bool (b : bool) : string := if b then "1" else "0".

Definition endl : string := String (Ascii.ascii_of_nat 10) EmptyString.

(** One of the four loops (lines 146-148, 151-153, 156-158, 161-163): [k]
    iterations remain, the counter is [i]. *)
Fixpoint dump_loop (show : evalStruct → string) (k i : nat)
    (v : list evalStruct) : printed unit :=
  match k with
  | O => mret tt
  | S k' =>
      match v !! i with
      | None => throw_out_of_range
      | Some e => LOG (setw valWidth (show e)) ;; dump_loop show k' (S i) v
      end
  end.

(** A title, a loop and the end of the line. *)
Definition dump_row (title : string) (show : evalStruct → string)
    (v : list evalStruct) : printed unit :=
  LOG (setw titleWidth title) ;;
  dump_loop show nEvaluations 0 v ;;
  LOG endl.

Definition dump (v : list evalStruct) : printed unit :=
  dump_row "param1=" (λ e, show_int (param1 e)) v ;;
  dump_row "param2=" (λ e, show_int (param2 e)) v ;;
  dump_row "results=" (λ e, show_int (result e)) v ;;
  dump_row "readyFlags=" (λ e, show_bool (readyFlag e)) v.

(** The whole text. *)
Definition text_of (out : list string) : string :=
  foldr String.append EmptyString out.

(** The cells of one complete row. *)
Definition cells (show : evalStruct → string) (v : list evalStruct) : list string :=
  (λ e, setw valWidth (show e)) <$> take nEvaluations v.

Definition row (title : string) (show : evalStruct → string)
    (v : list evalStruct) : list string :=
  setw titleWidth title :: cells show v ++ [endl].

(** An [int] that [setw(valWidth)] prints in [valWidth] characters. *)
Definition fits (z : Z) : Prop := (-999 ≤ z ≤ 9999)%Z.

(** The lines of a text, each ended by [endl]. *)
Definition lines (ls : list string) : string :=
  text_of ((λ l, l +:+ endl) <$> ls).

(** What the two calls of [dump] in [main] print: before anything is
    scheduled (line 177), and after every task has run (line 190). *)
Definition main_initial_dump : list string :=
  ["     param1=   0   2   4   6   8  10  12  14  16  18  20";
   "     param2=   0   1   2   3   4   5   6   7   8   9  10";
   "    results=   0   0   0   0   0   0   0   0   0   0   0";
   " readyFlags=   0   0   0   0   0   0   0   0   0   0   0"].

Definition main_final_dump : list string :=
  ["     param1=   0   2   4   6   8  10  12  14  16  18  20";
   "     param2=   0   1   2   3   4   5   6   7   8   9  10";
   "    results=   0   1   8   2  12   5  72   2  24   9 200";
   " readyFlags=   1   1   1   1   1   1   1   1   1   1   1"].

(** * Properties *)

(** ** Sample functions and the table of [main] *)

Lemma funcs_lookup (i : nat) :
  funcs !! (i mod nFuncs) =
    Some (match i mod 4 with
          | 0 => myFunc_1 | 1 => myFunc_2 | 2 => myFunc_3 | _ => myFunc_4
          end).
Proof.
  change nFuncs with 4.
  assert (i mod 4 < 4) as H by (apply Nat.mod_upper_bound; lia).
  destruct (i mod 4) as [|[|[|[|?]]]]; try reflexivity; lia.
Qed.

Lemma myFunc_4_differs (f : func_t) :
  f = myFunc_1 ∨ f = myFunc_2 ∨ f = myFunc_3 → f ≠ myFunc_4.
Proof.
  intros [->|[->| ->]] H; apply (f_equal (λ g : func_t, g 2%Z 2%Z)) in H;
    vm_compute in H; discriminate.
Qed.

Lemma vEvals_init_lookup (i : nat) (e : evalStruct) :
  vEvals_init !! i = Some e →
  i < nEvaluations ∧
  e = EvalStruct (2 * Z.of_nat i) (Z.of_nat i) 0 false
        (match i mod 4 with
         | 0 => myFunc_1 | 1 => myFunc_2 | 2 => myFunc_3 | _ => myFunc_4
         end).
Proof.
  unfold vEvals_init. rewrite list_lookup_fmap.
  destruct (seq 0 nEvaluations !! i) as [j|] eqn:Hj; [|discriminate].
  apply lookup_seq in Hj as [-> Hlt]. cbn [fmap option_fmap option_map plus].
  rewrite funcs_lookup. intros [= <-]. split; [exact Hlt|reflexivity].
Qed.

Lemma vEvals_init_defined (i : nat) (e : evalStruct) :
  vEvals_init !! i = Some e → func e (param1 e) (param2 e) ≠ None.
Proof.
  intros He. apply vEvals_init_lookup in He as [Hi ->].
  unfold nEvaluations in Hi.
  do 11 (destruct i as [|i]; [vm_compute; discriminate|]). lia.
Qed.

(** ** [evaluate] run alone *)

Lemma evaluate_loop_first_free (k i0 : nat) (t : task) (p : ThreadPool)
    (i : nat) (m : ThreadManager) :
  i0 ≤ i < i0 + k →
  m_vpThreads p !! i = Some m →
  free m = true →
  m_mxQueue m = None →
  (∀ j m', i0 ≤ j < i → m_vpThreads p !! j = Some m' → free m' = false) →
  evaluate_loop k i0 t p =
    Return true (set_vpThreads (<[i := claim t m]> (m_vpThreads p)) p).
Proof.
  revert i0. induction k as [|k IH]; intros i0 Hi Hm Hf Hl Hbusy; [lia|].
  simpl. destruct (decide (i0 = i)) as [->|Hne].
  - by rewrite Hm, Hf, Hl.
  - destruct (m_vpThreads p !! i0) as [m0|] eqn:H0.
    + rewrite (Hbusy i0 m0) by (done || lia).
      apply IH; [lia|done..|]. intros j m' Hj. apply Hbusy. lia.
    + apply lookup_ge_None in H0. apply lookup_lt_Some in Hm. lia.
Qed.

Lemma evaluate_loop_none_free (k i0 : nat) (t : task) (p : ThreadPool) :
  i0 + k ≤ length (m_vpThreads p) →
  (∀ j m, m_vpThreads p !! j = Some m → free m = false) →
  evaluate_loop k i0 t p = Return false p.
Proof.
  revert i0. induction k as [|k IH]; intros i0 Hlen Hbusy; [reflexivity|].
  simpl. destruct (m_vpThreads p !! i0) as [m0|] eqn:H0.
  - rewrite (Hbusy i0 m0 H0). apply IH; [lia|done].
  - apply lookup_ge_None in H0. lia.
Qed.



(** C3: when no worker is free, [evaluate] returns false and the pool is
    unchanged: the task is stored nowhere. *)
Theorem evaluate_rejects_when_busy (f : func_t) (p1 p2 : Z) (res rdy : nat)
    (p : ThreadPool) :
  pool_wf p →
  (∀ j m, m_vpThreads p !! j = Some m → free m = false) →
  evaluate f p1 p2 res rdy p = Return false p.
Proof.
  intros Hwf Hbusy. unfold evaluate.
  apply evaluate_loop_none_free; [|done]. rewrite Hwf, Nat2Z.id. lia.
Qed.

(** ** The task body and the caller's records *)

Lemma result_alter_write_result (v : Z) (i j : nat) (mem : list evalStruct) :
  result <$> alter (write_result v) i mem !! j =
    if decide (i = j) then (λ _, v) <$> mem !! j else result <$> mem !! j.
Proof.
  rewrite list_lookup_alter. case_decide; [subst|done]. by destruct (mem !! j).
Qed.

Lemma readyFlag_alter_write_result (v : Z) (i j : nat) (mem : list evalStruct) :
  readyFlag <$> alter (write_result v) i mem !! j = readyFlag <$> mem !! j.
Proof.
  rewrite list_lookup_alter. case_decide; [subst|done]. by destruct (mem !! j).
Qed.

Lemma result_alter_write_readyFlag (b : bool) (i j : nat) (mem : list evalStruct) :
  result <$> alter (write_readyFlag b) i mem !! j = result <$> mem !! j.
Proof.
  rewrite list_lookup_alter. case_decide; [subst|done]. by destruct (mem !! j).
Qed.

Lemma readyFlag_alter_write_readyFlag (b : bool) (i j : nat) (mem : list evalStruct) :
  readyFlag <$> alter (write_readyFlag b) i mem !! j =
    if decide (i = j) then (λ _, b) <$> mem !! j else readyFlag <$> mem !! j.
Proof.
  rewrite list_lookup_alter. case_decide; [subst|done]. by destruct (mem !! j).
Qed.

(** ** The constructor *)

Lemma ctor_loop_spec (k : nat) (i : Z) (v : list ThreadManager) :
  ctor_loop k i v =
    v ++ ((λ j : nat, new_ThreadManager (i + Z.of_nat j)) <$> seq 0 k).
Proof.
  revert i v. induction k as [|k IH]; intros i v.
  - simpl. by rewrite app_nil_r.
  - cbn [ctor_loop]. rewrite IH, <- app_assoc. f_equal.
    cbn [seq fmap list_fmap app]. rewrite Z.add_0_r. f_equal.
    rewrite <- fmap_S_seq, <- list_fmap_compose.
    apply list_fmap_ext. intros _ j _. simpl. f_equal. lia.
Qed.

Lemma ctor_loop_length (k : nat) : length (ctor_loop k 0 []) = k.
Proof. rewrite ctor_loop_spec. simpl. by rewrite length_fmap, length_seq. Qed.

Lemma ctor_loop_lookup (k j : nat) :
  j < k → ctor_loop k 0 [] !! j = Some (new_ThreadManager (Z.of_nat j)).
Proof.
  intros Hj. rewrite ctor_loop_spec. simpl.
  by rewrite list_lookup_fmap, lookup_seq_lt.
Qed.

Lemma ctor_loop_lookup_Some (k j : nat) (m : ThreadManager) :
  ctor_loop k 0 [] !! j = Some m → j < k ∧ m = new_ThreadManager (Z.of_nat j).
Proof.
  intros H. pose proof (lookup_lt_Some _ _ _ H) as Hlt.
  rewrite ctor_loop_length in Hlt. rewrite ctor_loop_lookup in H by done.
  split; congruence.
Qed.

Lemma fresh_pool_wf (n : nat) : pool_wf (fresh_pool n).
Proof. unfold pool_wf. simpl. by rewrite ctor_loop_length. Qed.

Lemma main_pool_constructed :
  ThreadPool_ctor 64 (2 ^ 60 - 1) nThreads = Constructed main_pool.
Proof. reflexivity. Qed.

Section Construction.

Variable size_bits : Z.
Variable vector_max_size : Z.

(** Every [int] count fits the vector, and the conversion of a negative
    [int] to [size_type] lands above [max_size()]. *)
Hypothesis max_size_holds_int : (Int.max ≤ vector_max_size)%Z.
Hypothesis max_size_below_wrap : (vector_max_size < 2 ^ size_bits + Int.min)%Z.

(** C9, as the code has it: a negative count leaves the constructor through
    the [std::length_error] of [reserve] and no pool exists; a count of zero
    is accepted and gives a pool without workers, on which [evaluate] returns
    false; a count [n ≥ 1] gives exactly [n] workers, numbered in order, each
    free, with an empty queue and its thread at the top of [execute]. *)
Theorem ThreadPool_ctor_cases (n : Z) :
  (Int.min ≤ n ≤ Int.max)%Z →
  ((n < 0)%Z → ThreadPool_ctor size_bits vector_max_size n = Throw_length_error) ∧
  ((0 ≤ n)%Z →
     ∃ p, ThreadPool_ctor size_bits vector_max_size n = Constructed p ∧
          pool_wf p ∧ m_nThreads p = n ∧
          length (m_vpThreads p) = Z.to_nat n ∧
          (∀ i, i < Z.to_nat n →
             m_vpThreads p !! i = Some (new_ThreadManager (Z.of_nat i)) ∧
             exec_at (new_ThreadManager (Z.of_nat i)) = XLock ∧
             free (new_ThreadManager (Z.of_nat i)) = true ∧
             functionsQueue (new_ThreadManager (Z.of_nat i)) = []) ∧
          (n = 0%Z →
             m_vpThreads p = [] ∧
             ∀ f p1 p2 res rdy, evaluate f p1 p2 res rdy p = Return false p)).
Proof.
  intros Hn. unfold ThreadPool_ctor, to_size_t.
  unfold Int.min, Int.max in *.
  assert (0 < 2 ^ size_bits)%Z as Hpos by lia.
  split.
  - intros Hneg.
    replace (n mod 2 ^ size_bits)%Z with (n + 2 ^ size_bits)%Z.
    + destruct (Z.ltb_spec vector_max_size (n + 2 ^ size_bits)); [done|lia].
    + apply Z.mod_unique with (-1)%Z; lia.
  - intros Hnn. rewrite Z.mod_small by lia.
    destruct (Z.ltb_spec vector_max_size n); [lia|].
    eexists. split; [reflexivity|]. split_and!.
    + unfold pool_wf. simpl. rewrite ctor_loop_length. lia.
    + done.
    + simpl. apply ctor_loop_length.
    + intros i Hi. simpl. split_and!; try done. by apply ctor_loop_lookup.
    + intros ->. split; [done|]. intros. reflexivity.
Qed.

End Construction.

(** C9 as the specification words it fails at a count of zero: the
    constructor reports nothing and returns a pool. *)
Lemma ThreadPool_ctor_zero_accepted :
  ThreadPool_ctor 64 (2 ^ 60 - 1) 0 =
    Constructed {| m_nThreads := 0; m_vpThreads := [] |}.
Proof. reflexivity. Qed.

Lemma ThreadPool_ctor_cases_witness :
  ThreadPool_ctor 64 (2 ^ 60 - 1) (-1) = Throw_length_error ∧
  ∃ p, ThreadPool_ctor 64 (2 ^ 60 - 1) 4 = Constructed p ∧
       length (m_vpThreads p) = 4.
Proof.
  assert (Int.max ≤ 2 ^ 60 - 1)%Z as H1 by (vm_compute; discriminate).
  assert (2 ^ 60 - 1 < 2 ^ 64 + Int.min)%Z as H2 by reflexivity.
  split.
  - assert (Int.min ≤ -1 ≤ Int.max)%Z as H3 by (vm_compute; split; discriminate).
    apply (proj1 (ThreadPool_ctor_cases 64 (2 ^ 60 - 1) H1 H2 (-1) H3)). lia.
  - assert (Int.min ≤ 4 ≤ Int.max)%Z as H3 by (vm_compute; split; discriminate).
    destruct (proj2 (ThreadPool_ctor_cases 64 (2 ^ 60 - 1) H1 H2 4 H3))
      as (p & Hp & _ & _ & Hlen & _); [lia|].
    exists p. split; [exact Hp|exact Hlen].
Defined.

(** ** Runs and single steps *)

Lemma run_snoc (sched : list thread_id) (th : thread_id) (s : state) :
  run (sched ++ [th]) s = default (run sched s) (step th (run sched s)).
Proof. unfold run. by rewrite foldl_snoc. Qed.

Lemma invariant_run (I : state → Prop) (s0 : state) :
  I s0 → (∀ s th s', I s → step th s = Some s' → I s') →
  ∀ sched, I (run sched s0).
Proof.
  intros H0 Hstep sched. induction sched as [|th sched IH] using rev_ind; [done|].
  rewrite run_snoc. destruct (step th (run sched s0)) as [s'|] eqn:Hs; [|done].
  simpl. eauto.
Qed.

Lemma step_worker_inv (w : nat) (s s' : state) :
  step (Worker w) s = Some s' →
  ∃ m m' mem',
    m_vpThreads (pool s) !! w = Some m ∧
    execute_step w m (vEvals s) = Some (m', mem') ∧
    s' = {| pool := set_vpThreads (<[w := m']> (m_vpThreads (pool s))) (pool s);
            callers := callers s; vEvals := mem' |}.
Proof.
  unfold step. intros H.
  destruct (m_vpThreads (pool s) !! w) as [m|]; simpl in H; [|discriminate].
  destruct (execute_step w m (vEvals s)) as [[m' mem']|] eqn:Hx; simpl in H;
    [|discriminate]. injection H as <-. exists m, m', mem'. auto.
Qed.

Lemma step_caller_inv (c : nat) (s s' : state) :
  step (Caller c) s = Some s' →
  ∃ cl cl' p',
    callers s !! c = Some cl ∧
    evaluate_step c cl (pool s) = Some (cl', p') ∧
    s' = {| pool := p'; callers := <[c := cl']> (callers s); vEvals := vEvals s |}.
Proof.
  unfold step. intros H.
  destruct (callers s !! c) as [cl|]; simpl in H; [|discriminate].
  destruct (evaluate_step c cl (pool s)) as [[cl' p']|] eqn:Hx; simpl in H;
    [|discriminate]. injection H as <-. exists cl, cl', p'. auto.
Qed.

Lemma lookup_alter_Some {A} (f : A → A) (l : list A) (i j : nat) (y : A) :
  alter f i l !! j = Some y →
  (i = j ∧ ∃ x, l !! j = Some x ∧ y = f x) ∨ (i ≠ j ∧ l !! j = Some y).
Proof.
  rewrite list_lookup_alter. case_decide; [subst|by right].
  destruct (l !! j) as [x|]; [|done]. intros [= <-]. left. eauto.
Qed.

Lemma alter_as_insert {A} (f : A → A) (l : list A) (i : nat) (x : A) :
  l !! i = Some x → alter f i l = <[i := f x]> l.
Proof.
  intros Hi. apply list_eq. intros j. destruct (decide (i = j)) as [<-|Hne].
  - rewrite list_lookup_alter_eq, Hi, list_lookup_insert_eq; [done|].
    by eapply lookup_lt_Some.
  - by rewrite list_lookup_alter_ne, list_lookup_insert_ne.
Qed.

Lemma alter_out_of_range {A} (f : A → A) (l : list A) (i : nat) :
  l !! i = None → alter f i l = l.
Proof.
  intros Hi. apply list_eq. intros j. destruct (decide (i = j)) as [<-|Hne].
  - by rewrite list_lookup_alter_eq, Hi.
  - by rewrite list_lookup_alter_ne.
Qed.

(** ** Proof steps shared by the invariants *)

Ltac inv_lookup :=
  repeat match goal with
  | H : <[_ := _]> _ !! _ = Some _ |- _ =>
      apply list_lookup_insert_Some in H as [(? & ? & ?)|(? & ?)]
  | H : alter _ _ _ !! _ = Some _ |- _ =>
      apply lookup_alter_Some in H as [(? & ? & ? & ?)|(? & ?)]
  end; simplify_eq/=.

Ltac inv_evaluate_step H :=
  unfold evaluate_step, at_manager in H;
  repeat case_match; simplify_option_eq.

Ltac inv_execute_step H :=
  unfold execute_step in H;
  repeat case_match; simplify_option_eq.

Ltac use_hyps :=
  repeat match goal with
  | H : ?P → _ |- _ =>
      let HP := fresh in
      assert (HP : P) by (simpl; solve [reflexivity | assumption | auto]);
      specialize (H HP); clear HP
  end.

Ltac use_lock_inv La Lb :=
  repeat match goal with
  | H : m_vpThreads (pool _) !! ?w = Some ?m |- _ =>
      learn_hyp (La w m H)
  | H : callers _ !! ?c = Some ?cl,
    H' : m_vpThreads (pool _) !! ?i = Some ?m |- _ =>
      learn_hyp (Lb c cl i m H)
  end.

Ltac use_flag_inv F1 F2 F3 F4 :=
  repeat match goal with
  | H : m_vpThreads (pool _) !! ?w = Some ?m |- _ =>
      learn_hyp (F1 w m H)
  | H : callers _ !! 0 = Some ?cl,
    H' : m_vpThreads (pool _) !! ?w = Some ?m |- _ =>
      first [learn_hyp (F2 cl w m H H') | learn_hyp (F3 cl w m H H')
            | learn_hyp (F4 cl w m H H')]
  end.

Ltac split_hyps :=
  repeat match goal with
  | H : _ ∧ _ |- _ => destruct H
  | H : ∃ _, _ |- _ => destruct H
  | H : _ ∨ _ |- _ => destruct H
  end.

Ltac forward := repeat (simpl in *; use_hyps; split_hyps; simplify_eq/=).

Ltac case_on f m :=
  lazymatch goal with
  | H : f m = _ |- _ => fail
  | _ => destruct (f m) eqn:?
  end.

Ltac case_free :=
  repeat match goal with
  | H : context [free ?m] |- _ => is_var m; case_on free m
  | |- context [free ?m] => is_var m; case_on free m
  end.

Ltac case_exec_at :=
  repeat match goal with
  | H : context [exec_at ?m] |- _ => is_var m; case_on exec_at m
  | |- context [exec_at ?m] => is_var m; case_on exec_at m
  end.

Ltac case_bool :=
  repeat match goal with b : bool |- _ => destruct b end.

Ltac rewrite_queue :=
  repeat match goal with
  | H : functionsQueue ?m = _ |- context [functionsQueue ?m] => rewrite H
  end.

Ltac finish := forward; rewrite_queue; simpl; solve [eauto 6 | congruence].

Ltac close :=
  first [ solve [finish]
        | solve [case_bool; case_free; finish]
        | solve [case_bool; case_free; case_exec_at; finish] ].

(** ** Ownership of the mutexes *)

Lemma lock_inv_step (s : state) (th : thread_id) (s' : state) :
  lock_inv s → step th s = Some s' → lock_inv s'.
Proof.
  intros [La Lb] Hstep. destruct th as [c|w].
  - apply step_caller_inv in Hstep as (cl & cl' & p' & Hcl & Hev & ->).
    destruct cl as [pend pc].
    inv_evaluate_step Hev.
    all: split; simpl; intros; inv_lookup.
    all: use_lock_inv La Lb; simpl in *; use_hyps.
    all: try (by eauto).
    all: try congruence.
  - apply step_worker_inv in Hstep as (m & m' & mem' & Hm & Hex & ->).
    destruct m as [lk q fr id pc].
    inv_execute_step Hex.
    all: split; simpl; intros; inv_lookup.
    all: use_lock_inv La Lb; simpl in *; use_hyps.
    all: try (by eauto).
    all: try congruence.
Qed.

Lemma start_lock_inv (n : nat) (reqs : list (list task)) (mem : list evalStruct) :
  lock_inv (start (fresh_pool n) reqs mem).
Proof.
  split; simpl.
  - intros w m Hm. apply ctor_loop_lookup_Some in Hm as [_ ->]. done.
  - intros c cl i m Hc. apply list_lookup_fmap_Some in Hc as (r & -> & _). done.
Qed.

(** ** One dispatching thread: the flag, the queue and the positions *)

Lemma single_caller (s : state) (c : nat) (cl : caller) :
  length (callers s) = 1 → callers s !! c = Some cl → c = 0.
Proof. intros Hlen Hc. apply lookup_lt_Some in Hc. lia. Qed.

Lemma flag_inv_step (s : state) (th : thread_id) (s' : state) :
  lock_inv s → flag_inv s → step th s = Some s' → flag_inv s'.
Proof.
  intros [La Lb] [F0 F1 F2 F3 F4] Hstep. destruct th as [c|w].
  - apply step_caller_inv in Hstep as (cl & cl' & p' & Hcl & Hev & ->).
    pose proof (single_caller _ _ _ F0 Hcl) as ->.
    destruct cl as [pend pc].
    inv_evaluate_step Hev.
    all: split; simpl; [by rewrite length_insert|..]; intros; inv_lookup.
    all: use_lock_inv La Lb; use_flag_inv F1 F2 F3 F4; clear La Lb F1 F2 F3 F4.
    all: close.
  - apply step_worker_inv in Hstep as (m & m' & mem' & Hm & Hex & ->).
    destruct (lookup_lt_is_Some_2 (callers s) 0) as [[pend0 pc0] Hcl0]; [lia|].
    destruct m as [lk q fr id pc].
    inv_execute_step Hex.
    all: split; simpl; [done|..]; intros; inv_lookup.
    all: use_lock_inv La Lb; use_flag_inv F1 F2 F3 F4; clear La Lb F1 F2 F3 F4.
    all: close.
Qed.

Lemma start_flag_inv (n : nat) (reqs : list task) (mem : list evalStruct) :
  flag_inv (start (fresh_pool n) [reqs] mem).
Proof.
  split; simpl; [done|..]; intros; simplify_eq/=;
    repeat match goal with
    | H : ctor_loop _ _ _ !! _ = Some _ |- _ =>
        apply ctor_loop_lookup_Some in H as [_ ->]
    end; simpl in *; try done; try naive_solver.
Qed.

(** ** Every accepted task is run *)

Section Stability.
Context (all : list task) (Hcompat : compatible all).

Lemma result_written_body_result (t t' : task) (mem mem' : list evalStruct) :
  t ∈ all → t' ∈ all → body_result t' mem = Some mem' →
  result_written t mem → result_written t mem'.
Proof.
  intros Ht Ht' Hb (v & Hv & Hr). unfold body_result in Hb.
  destruct (cap_f t' (cap_param1 t') (cap_param2 t')) as [v'|] eqn:Hv'; [|done].
  simpl in Hb. injection Hb as <-. exists v. split; [done|].
  rewrite result_alter_write_result. case_decide as Heq; [|done].
  rewrite <- (Hcompat t' t Ht' Ht Heq) in Hv. simplify_eq.
  by destruct (mem !! cap_result t).
Qed.

Lemma task_done_body_result (t t' : task) (mem mem' : list evalStruct) :
  t ∈ all → t' ∈ all → body_result t' mem = Some mem' →
  task_done t mem → task_done t mem'.
Proof.
  intros Ht Ht' Hb [Hw Hr]. split; [by eapply result_written_body_result|].
  unfold body_result in Hb.
  destruct (cap_f t' (cap_param1 t') (cap_param2 t')) as [v'|]; [|done].
  simpl in Hb. injection Hb as <-. by rewrite readyFlag_alter_write_result.
Qed.

End Stability.

Lemma result_written_body_ready (t t' : task) (mem : list evalStruct) :
  result_written t mem → result_written t (body_ready t' mem).
Proof.
  intros (v & Hv & Hr). exists v. split; [done|].
  unfold body_ready. by rewrite result_alter_write_readyFlag.
Qed.

Lemma task_done_body_ready (t t' : task) (mem : list evalStruct) :
  task_done t mem → task_done t (body_ready t' mem).
Proof.
  intros [Hw Hr]. split; [by apply result_written_body_ready|].
  unfold body_ready. rewrite readyFlag_alter_write_readyFlag.
  case_decide; [|done]. by destruct (mem !! cap_ready t).
Qed.

Lemma body_result_written (t : task) (mem mem' : list evalStruct) :
  cap_result t < length mem → body_result t mem = Some mem' →
  result_written t mem'.
Proof.
  intros Hlt Hb. unfold body_result in Hb.
  destruct (cap_f t (cap_param1 t) (cap_param2 t)) as [v|] eqn:Hv; [|done].
  simpl in Hb. injection Hb as <-. exists v. split; [done|].
  rewrite result_alter_write_result, decide_True by done.
  destruct (lookup_lt_is_Some_2 mem (cap_result t) Hlt) as [e ->]. done.
Qed.

Lemma body_ready_done (t : task) (mem : list evalStruct) :
  cap_ready t < length mem → result_written t mem →
  task_done t (body_ready t mem).
Proof.
  intros Hlt Hw. split; [by apply result_written_body_ready|].
  unfold body_ready. rewrite readyFlag_alter_write_readyFlag, decide_True by done.
  destruct (lookup_lt_is_Some_2 mem (cap_ready t) Hlt) as [e ->]. done.
Qed.

Lemma body_result_length (t : task) (mem mem' : list evalStruct) :
  body_result t mem = Some mem' → length mem' = length mem.
Proof.
  unfold body_result. intros Hb.
  destruct (cap_f t (cap_param1 t) (cap_param2 t)); [|done].
  simpl in Hb. injection Hb as <-. apply length_alter.
Qed.

Lemma body_ready_length (t : task) (mem : list evalStruct) :
  length (body_ready t mem) = length mem.
Proof. apply length_alter. Qed.

Lemma queued_insert (ws : list ThreadManager) (i : nat) (m m' : ThreadManager) (t : task) :
  ws !! i = Some m →
  (t ∈ functionsQueue m → t ∈ functionsQueue m') →
  queued ws t → queued (<[i := m']> ws) t.
Proof.
  intros Hi Hsub (w & mw & Hw & Ht). destruct (decide (w = i)) as [->|Hne].
  - exists i, m'. split; [apply list_lookup_insert_eq; by eapply lookup_lt_Some|].
    apply Hsub. congruence.
  - exists w, mw. by rewrite list_lookup_insert_ne.
Qed.

Lemma queued_insert_inv (ws : list ThreadManager) (i : nat) (m m' : ThreadManager) (t : task) :
  ws !! i = Some m →
  queued (<[i := m']> ws) t →
  t ∈ functionsQueue m' ∨ queued ws t.
Proof.
  intros Hi (w & mw & Hw & Ht).
  apply list_lookup_insert_Some in Hw as [(-> & -> & _)|(Hne & Hw)]; [by left|].
  right. by exists w, mw.
Qed.

Lemma queued_insert_pop (ws : list ThreadManager) (i : nat) (m m' : ThreadManager)
    (t0 t : task) :
  ws !! i = Some m →
  functionsQueue m = t0 :: functionsQueue m' →
  queued ws t → t = t0 ∨ queued (<[i := m']> ws) t.
Proof.
  intros Hi Hq (w & mw & Hw & Ht). destruct (decide (w = i)) as [->|Hne].
  - assert (mw = m) as -> by congruence. rewrite Hq in Ht.
    apply elem_of_cons in Ht as [->|Ht]; [by left|]. right.
    exists i, m'. split; [|done].
    apply list_lookup_insert_eq. by eapply lookup_lt_Some.
  - right. exists w, mw. by rewrite list_lookup_insert_ne.
Qed.

Lemma queued_insert_here (ws : list ThreadManager) (i : nat) (m m' : ThreadManager) (t : task) :
  ws !! i = Some m → t ∈ functionsQueue m' → queued (<[i := m']> ws) t.
Proof.
  intros Hi Ht. exists i, m'. split; [|done].
  apply list_lookup_insert_eq. by eapply lookup_lt_Some.
Qed.

Lemma queued_alter (ws : list ThreadManager) (i : nat) (f : ThreadManager → ThreadManager)
    (t : task) :
  (∀ m, functionsQueue (f m) = functionsQueue m) →
  queued (alter f i ws) t ↔ queued ws t.
Proof.
  intros Hf. split.
  - intros (w & mw & Hw & Ht).
    apply lookup_alter_Some in Hw as [(-> & x & Hx & ->)|(Hne & Hw)].
    + exists w, x. by rewrite <- Hf.
    + by exists w, mw.
  - intros (w & mw & Hw & Ht). destruct (decide (i = w)) as [->|Hne].
    + exists w, (f mw). rewrite list_lookup_alter_eq, Hw. by rewrite Hf.
    + exists w, mw. by rewrite list_lookup_alter_ne.
Qed.

Lemma waiting_insert (cs : list caller) (c : nat) (cl cl' : caller) (t : task) :
  cs !! c = Some cl →
  (t ∈ pending cl → t ∈ pending cl') →
  waiting cs t → waiting (<[c := cl']> cs) t.
Proof.
  intros Hc Hsub (c0 & cl0 & Hc0 & Ht). destruct (decide (c0 = c)) as [->|Hne].
  - exists c, cl'. split; [apply list_lookup_insert_eq; by eapply lookup_lt_Some|].
    apply Hsub. congruence.
  - exists c0, cl0. by rewrite list_lookup_insert_ne.
Qed.

Lemma waiting_insert_inv (cs : list caller) (c : nat) (cl cl' : caller) (t : task) :
  cs !! c = Some cl →
  (t ∈ pending cl' → t ∈ pending cl) →
  waiting (<[c := cl']> cs) t → waiting cs t.
Proof.
  intros Hc Hsub (c0 & cl0 & Hc0 & Ht).
  apply list_lookup_insert_Some in Hc0 as [(-> & -> & _)|(Hne & Hc0)].
  - exists c0, cl. auto.
  - by exists c0, cl0.
Qed.

Lemma waiting_insert_tail (cs : list caller) (c : nat) (cl cl' : caller) (t0 t : task) :
  cs !! c = Some cl →
  pending cl = t0 :: pending cl' →
  waiting cs t → t = t0 ∨ waiting (<[c := cl']> cs) t.
Proof.
  intros Hc Hq (c0 & cl0 & Hc0 & Ht). destruct (decide (c0 = c)) as [->|Hne].
  - assert (cl0 = cl) as -> by congruence. rewrite Hq in Ht.
    apply elem_of_cons in Ht as [->|Ht]; [by left|]. right.
    exists c, cl'. split; [|done].
    apply list_lookup_insert_eq. by eapply lookup_lt_Some.
  - right. exists c0, cl0. by rewrite list_lookup_insert_ne.
Qed.

Lemma queued_insert_same (ws : list ThreadManager) (i : nat) (m m' : ThreadManager) (t : task) :
  ws !! i = Some m → functionsQueue m' = functionsQueue m →
  queued (<[i := m']> ws) t ↔ queued ws t.
Proof.
  intros Hi Hq. split.
  - intros H. eapply queued_insert_inv in H as [H|H]; [|done..].
    exists i, m. by rewrite <- Hq.
  - apply queued_insert with m; [done|]. by rewrite Hq.
Qed.

Section TaskInv.
Context (all : list task) (Hcompat : compatible all).

Lemma task_inv_worker_quiet (s : state) (w : nat) (m m' : ThreadManager) :
  task_inv all s →
  m_vpThreads (pool s) !! w = Some m →
  functionsQueue m' = functionsQueue m →
  exec_ok (vEvals s) m' →
  task_inv all
    {| pool := set_vpThreads (<[w := m']> (m_vpThreads (pool s))) (pool s);
       callers := callers s; vEvals := vEvals s |}.
Proof.
  intros [T1 T2 T3 T4 T5 T6] Hm Hq Hok. split; simpl.
  - done.
  - done.
  - intros t Ht. apply T3. by eapply queued_insert_same.
  - intros t Ht. destruct (T4 t Ht) as [?|[?|?]]; auto.
    right; left. by eapply queued_insert_same.
  - intros c cl t r Hc Hp Hpc. destruct (T5 c cl t r Hc Hp Hpc); auto.
    left. by eapply queued_insert_same.
  - intros w' mw Hw. apply list_lookup_insert_Some in Hw as [(-> & <- & _)|(_ & Hw)]; eauto.
Qed.

Lemma exec_ok_mem (mem mem' : list evalStruct) (m : ThreadManager) :
  (∀ t, t ∈ functionsQueue m → result_written t mem → result_written t mem') →
  (∀ t, t ∈ functionsQueue m → task_done t mem → task_done t mem') →
  exec_ok mem m → exec_ok mem' m.
Proof.
  unfold exec_ok. intros Hw Hd. destruct (exec_at m); try done.
  - intros [[q Hq] H]. split; [eauto|]. apply Hw; [|done]. rewrite Hq. left.
  - intros (t & q & Hq & H). exists t, q. split; [done|]. apply Hd; [|done].
    rewrite Hq. left.
Qed.

Lemma task_inv_worker_mem (s : state) (w : nat) (m m' : ThreadManager)
    (mem' : list evalStruct) :
  task_inv all s →
  m_vpThreads (pool s) !! w = Some m →
  functionsQueue m' = functionsQueue m →
  length mem' = length (vEvals s) →
  (∀ t, t ∈ all → result_written t (vEvals s) → result_written t mem') →
  (∀ t, t ∈ all → task_done t (vEvals s) → task_done t mem') →
  exec_ok mem' m' →
  task_inv all
    {| pool := set_vpThreads (<[w := m']> (m_vpThreads (pool s))) (pool s);
       callers := callers s; vEvals := mem' |}.
Proof.
  intros [T1 T2 T3 T4 T5 T6] Hm Hq Hlen Hw Hd Hok. split; simpl.
  - intros t Ht. rewrite Hlen. auto.
  - done.
  - intros t Ht. apply T3. by eapply queued_insert_same.
  - intros t Ht. destruct (T4 t Ht) as [?|[?|?]]; auto.
    right; left. by eapply queued_insert_same.
  - intros c cl t r Hc Hp Hpc.
    assert (t ∈ all) as Ht.
    { apply T2. exists c, cl. split; [done|]. rewrite Hp. left. }
    destruct (T5 c cl t r Hc Hp Hpc); auto.
    left. by eapply queued_insert_same.
  - intros w' mw Hw'.
    apply list_lookup_insert_Some in Hw' as [(-> & <- & _)|(_ & Hw')]; [done|].
    eapply exec_ok_mem; [| |by eapply T6].
    + intros t Ht. apply Hw, T3. by exists w', mw.
    + intros t Ht. apply Hd, T3. by exists w', mw.
Qed.

Lemma task_inv_worker_pop (s : state) (w : nat) (m m' : ThreadManager) (t0 : task) :
  task_inv all s →
  m_vpThreads (pool s) !! w = Some m →
  functionsQueue m = t0 :: functionsQueue m' →
  task_done t0 (vEvals s) →
  exec_ok (vEvals s) m' →
  task_inv all
    {| pool := set_vpThreads (<[w := m']> (m_vpThreads (pool s))) (pool s);
       callers := callers s; vEvals := vEvals s |}.
Proof.
  intros [T1 T2 T3 T4 T5 T6] Hm Hq Hdone Hok. split; simpl.
  - done.
  - done.
  - intros t Ht. apply T3. eapply queued_insert_inv in Ht as [Ht|Ht]; [|done..].
    exists w, m. split; [done|]. rewrite Hq. by right.
  - intros t Ht. destruct (T4 t Ht) as [?|[Hqd|?]]; auto.
    eapply queued_insert_pop in Hqd as [->|?]; eauto.
  - intros c cl t r Hc Hp Hpc. destruct (T5 c cl t r Hc Hp Hpc) as [Hqd|?]; auto.
    eapply queued_insert_pop in Hqd as [->|?]; eauto.
  - intros w' mw Hw. apply list_lookup_insert_Some in Hw as [(-> & <- & _)|(_ & Hw)]; eauto.
Qed.

Lemma task_inv_step_worker (s : state) (w : nat) (s' : state) :
  task_inv all s → step (Worker w) s = Some s' → task_inv all s'.
Proof.
  intros HT Hstep.
  apply step_worker_inv in Hstep as (m & m' & mem' & Hm & Hex & ->).
  pose proof (task_exec _ _ HT w m Hm) as Hok.
  assert (∀ t, t ∈ functionsQueue m → t ∈ all) as Hall.
  { intros t Ht. apply (task_queue _ _ HT). by exists w, m. }
  destruct m as [lk q fr id pc]. unfold exec_ok in Hok. simpl in *.
  inv_execute_step Hex.
  all: try (eapply task_inv_worker_quiet;
    [exact HT|exact Hm|reflexivity|unfold exec_ok; simpl; by eauto]).
  - destruct Hok as [q0 ->].
    assert (f0 ∈ all) as Hf0 by (apply Hall; left).
    pose proof (task_range _ _ HT f0 Hf0) as [Hr1 Hr2].
    eapply task_inv_worker_mem; [exact HT|exact Hm|reflexivity|..].
    + by eapply body_result_length.
    + intros t Ht Hw. eapply result_written_body_result with (t' := f0); eauto.
    + intros t Ht Hd. eapply task_done_body_result with (t' := f0); eauto.
    + unfold exec_ok. simpl. split; [eauto|]. by eapply body_result_written.
  - destruct Hok as [[q0 ->] Hw].
    assert (f0 ∈ all) as Hf0 by (apply Hall; left).
    pose proof (task_range _ _ HT f0 Hf0) as [Hr1 Hr2].
    eapply task_inv_worker_mem; [exact HT|exact Hm|reflexivity|..].
    + apply body_ready_length.
    + intros t Ht. apply result_written_body_ready.
    + intros t Ht. apply task_done_body_ready.
    + unfold exec_ok. simpl. eexists _, _. split; [done|]. by apply body_ready_done.
  - destruct Hok as (t0 & q0 & [= -> ->] & Hd).
    eapply task_inv_worker_pop; [exact HT|exact Hm|reflexivity|exact Hd|done].
Qed.

Lemma task_inv_caller_quiet (s s' : state) (c : nat) (cl cl' : caller) :
  task_inv all s →
  callers s !! c = Some cl →
  callers s' = <[c := cl']> (callers s) →
  vEvals s' = vEvals s →
  pending cl' = pending cl →
  (eval_pushed (eval_at cl') = true → eval_pushed (eval_at cl) = true) →
  (m_vpThreads (pool s') = m_vpThreads (pool s) ∨
   ∃ i m m', m_vpThreads (pool s) !! i = Some m ∧
     m_vpThreads (pool s') = <[i := m']> (m_vpThreads (pool s)) ∧
     functionsQueue m' = functionsQueue m ∧ exec_at m' = exec_at m) →
  task_inv all s'.
Proof.
  intros [T1 T2 T3 T4 T5 T6] Hc Hcs Hmem Hp Hpc Hws.
  assert (∀ t, queued (m_vpThreads (pool s')) t ↔ queued (m_vpThreads (pool s)) t) as Hq.
  { intros t. destruct Hws as [->|(i & m & m' & Hi & -> & Hq & _)]; [done|].
    by eapply queued_insert_same. }
  split; rewrite ?Hcs, ?Hmem.
  - done.
  - intros t Ht. apply T2. eapply waiting_insert_inv; [done| |done]. by rewrite Hp.
  - intros t Ht. apply T3. by apply Hq.
  - intros t Ht. destruct (T4 t Ht) as [Hw|[?|?]]; auto.
    + left. eapply waiting_insert; [done| |done]. by rewrite Hp.
    + right; left. by apply Hq.
  - intros c' cl'' t r Hc' Hp' Hpc'. rewrite Hq.
    apply list_lookup_insert_Some in Hc' as [(-> & <- & _)|(_ & Hc')]; [|eauto].
    eapply T5; [done| |by auto]. by rewrite <- Hp.
  - intros w m Hw. destruct Hws as [Heq|(i & mi & m' & Hi & Heq & Hqi & Hpci)];
      rewrite Heq in Hw; [eauto|].
    apply list_lookup_insert_Some in Hw as [(-> & <- & _)|(_ & Hw)]; [|eauto].
    specialize (T6 _ _ Hi). unfold exec_ok in *. by rewrite Hqi, Hpci.
Qed.

Lemma task_inv_step_caller (s : state) (c : nat) (s' : state) :
  task_inv all s → step (Caller c) s = Some s' → task_inv all s'.
Proof.
  intros HT Hstep.
  apply step_caller_inv in Hstep as (cl & cl' & p' & Hcl & Hev & ->).
  destruct cl as [pend pc].
  inv_evaluate_step Hev.
  all: try (eapply (task_inv_caller_quiet s _ c _ _ HT Hcl);
    [reflexivity|reflexivity|reflexivity|simpl; try done|by eauto 10]).
  - (* the push of line 59 *)
    destruct HT as [T1 T2 T3 T4 T5 T6].
    assert (t0 ∈ all) as Ht0.
    { apply T2. eexists c, _. split; [exact Hcl|]. left. }
    match goal with H : m_vpThreads (pool s) !! i = Some _ |- _ => rename H into Hi end.
    assert (∀ t', queued (m_vpThreads (pool s)) t' →
      queued (<[i:=set_functionsQueue (functionsQueue t ++ [t0]) t]>
                (m_vpThreads (pool s))) t') as Hmono.
    { intros t'. apply queued_insert with t; [done|]. simpl.
      intros ?. apply elem_of_app. by left. }
    split; simpl.
    + done.
    + intros t' Ht'. apply T2. eapply waiting_insert_inv; [done| |done]. done.
    + intros t' Ht'. eapply queued_insert_inv in Ht' as [Ht'|Ht']; [|eauto..].
      simpl in Ht'. apply elem_of_app in Ht' as [Ht'|Ht'].
      * apply T3. by exists i, t.
      * apply list_elem_of_singleton in Ht' as ->. done.
    + intros t' Ht'. destruct (T4 t' Ht') as [Hw|[?|?]]; auto.
      left. eapply waiting_insert; [done| |done]. done.
    + intros c' cl'' t' r Hc' Hp' Hpc'.
      apply list_lookup_insert_Some in Hc' as [(-> & <- & _)|(_ & Hc')].
      * simpl in Hp'. injection Hp' as <- <-. left.
        eapply queued_insert_here; [done|]. simpl. apply elem_of_app. right. left.
      * destruct (T5 _ _ _ _ Hc' Hp' Hpc'); auto.
    + intros w m Hw.
      apply list_lookup_insert_Some in Hw as [(-> & <- & _)|(_ & Hw)]; [|eauto].
      specialize (T6 _ _ Hi). unfold exec_ok in *. simpl.
      destruct (exec_at t); try done.
      * destruct T6 as [q ->]. eauto.
      * destruct T6 as [[q ->] ?]. eauto.
      * destruct T6 as (t' & q & -> & ?). eauto.
  - (* the unlock at the break of line 64 *)
    destruct (m_vpThreads (pool s) !! i) as [m|] eqn:Hi.
    + eapply (task_inv_caller_quiet s _ c _ _ HT Hcl);
        [reflexivity|reflexivity|reflexivity|done|].
      right. exists i, m, (set_mxQueue None m). simpl.
      by rewrite (alter_as_insert _ _ _ _ Hi).
    + eapply (task_inv_caller_quiet s _ c _ _ HT Hcl);
        [reflexivity|reflexivity|reflexivity|done|].
      left. simpl. by apply alter_out_of_range.
  - (* the return of true: the request leaves the caller's list *)
    destruct pend as [|t0 r].
    { eapply (task_inv_caller_quiet s _ c _ _ HT Hcl);
        [reflexivity|reflexivity|reflexivity|done|by left]. }
    destruct HT as [T1 T2 T3 T4 T5 T6].
    pose proof (T5 _ _ _ _ Hcl eq_refl eq_refl) as Hhead.
    split; simpl.
    + done.
    + intros t' Ht'. apply T2. eapply waiting_insert_inv; [done| |done].
      simpl. by right.
    + done.
    + intros t' Ht'. destruct (T4 t' Ht') as [Hw|[?|?]]; auto.
      apply (waiting_insert_tail _ c _ {| pending := r; eval_at := ECall |}
               t0 _ Hcl eq_refl) in Hw as [->|?]; auto.
    + intros c' cl'' t' r' Hc' Hp' Hpc'.
      apply list_lookup_insert_Some in Hc' as [(-> & <- & _)|(_ & Hc')]; [done|eauto].
    + done.
Qed.

Lemma task_inv_step (s : state) (th : thread_id) (s' : state) :
  task_inv all s → step th s = Some s' → task_inv all s'.
Proof.
  destruct th; eauto using task_inv_step_caller, task_inv_step_worker.
Qed.

End TaskInv.

(** ** [at] stays in range, and the front of a queue stays put *)

Lemma front_inv_step (s : state) (th : thread_id) (s' : state) :
  front_inv s → step th s = Some s' → front_inv s'.
Proof.
  unfold front_inv, front_ok. intros HF Hstep. destruct th as [c|w].
  - apply step_caller_inv in Hstep as (cl & cl' & p' & Hcl & Hev & ->).
    destruct cl as [pend pc]. inv_evaluate_step Hev.
    all: simpl; intros w m Hm; inv_lookup; try (eapply HF; eassumption).
    all: repeat match goal with
         | H : m_vpThreads (pool _) !! ?w = Some ?m |- _ => learn_hyp (HF w m H)
         end; clear HF.
    all: try done.
    all: case_exec_at; forward; try done; eauto.
    all: rewrite_queue; simpl; eauto.
    all: by destruct (functionsQueue _).
  - apply step_worker_inv in Hstep as (m0 & m0' & mem' & Hm0 & Hex & ->).
    pose proof (HF w m0 Hm0) as H0.
    destruct m0 as [lk q fr id pc]. inv_execute_step Hex.
    all: simpl; intros w' m Hm; inv_lookup; try (eapply HF; eassumption).
    all: simpl in *; forward; try done; eauto.
    eexists _, _. split; [done|]. unfold body_result in *.
    by destruct (cap_f f (cap_param1 f) (cap_param2 f)).
Qed.

Lemma start_front_inv (n : nat) (reqs : list (list task)) (mem : list evalStruct) :
  front_inv (start (fresh_pool n) reqs mem).
Proof.
  intros w m Hm. apply ctor_loop_lookup_Some in Hm as [_ ->]. done.
Qed.

Lemma bounds_inv_step (s : state) (th : thread_id) (s' : state) :
  bounds_inv s → step th s = Some s' → bounds_inv s'.
Proof.
  intros [B1 B2 B3] Hstep. unfold pool_wf in *. destruct th as [c|w].
  - apply step_caller_inv in Hstep as (cl & cl' & p' & Hcl & Hev & ->).
    pose proof (B2 c cl) as B2c. pose proof (B3 c cl Hcl) as B3c.
    destruct cl as [pend pc]. inv_evaluate_step Hev.
    all: split; unfold pool_wf; simpl; rewrite ?length_insert, ?length_alter;
      try done.
    all: try (intros; inv_lookup; by eauto using lookup_lt_Some).
    all: repeat match goal with
         | H : _ !! _ = None |- _ => apply lookup_ge_None in H
         | H : (_ <? _)%Z = true |- _ => apply Z.ltb_lt in H
         end.
    all: try (specialize (B2c _ Hcl eq_refl)); try lia.
  - apply step_worker_inv in Hstep as (m0 & m0' & mem' & Hm0 & Hex & ->).
    split; unfold pool_wf; simpl; rewrite ?length_insert; done.
Qed.

Lemma start_bounds_inv (n : nat) (reqs : list (list task)) (mem : list evalStruct) :
  bounds_inv (start (fresh_pool n) reqs mem).
Proof.
  split; simpl.
  - apply fresh_pool_wf.
  - intros c cl i Hc. apply list_lookup_fmap_Some in Hc as (r & -> & _). done.
  - intros c cl Hc. apply list_lookup_fmap_Some in Hc as (r & -> & _). done.
Qed.

(** ** Reachable states *)

Lemma lock_inv_run (n : nat) (reqs : list (list task)) (mem : list evalStruct)
    (sched : list thread_id) :
  lock_inv (run sched (start (fresh_pool n) reqs mem)).
Proof.
  apply invariant_run; [apply start_lock_inv|].
  intros s th s'. apply lock_inv_step.
Qed.

Lemma flag_inv_run (n : nat) (reqs : list task) (mem : list evalStruct)
    (sched : list thread_id) :
  flag_inv (run sched (start (fresh_pool n) [reqs] mem)).
Proof.
  apply (invariant_run (λ s, lock_inv s ∧ flag_inv s)).
  - split; [apply start_lock_inv|apply start_flag_inv].
  - intros s th s' [HL HF] Hstep. split.
    + by eapply lock_inv_step.
    + by eapply flag_inv_step.
Qed.

Lemma bounds_inv_run (n : nat) (reqs : list (list task)) (mem : list evalStruct)
    (sched : list thread_id) :
  bounds_inv (run sched (start (fresh_pool n) reqs mem)).
Proof.
  apply invariant_run; [apply start_bounds_inv|].
  intros s th s'. apply bounds_inv_step.
Qed.

Lemma front_inv_run (n : nat) (reqs : list (list task)) (mem : list evalStruct)
    (sched : list thread_id) :
  front_inv (run sched (start (fresh_pool n) reqs mem)).
Proof.
  apply invariant_run; [apply start_front_inv|].
  intros s th s'. apply front_inv_step.
Qed.

(** Whoever dispatches, [at] never throws: no caller ever stands at
    [EThrow]. *)
Lemma never_throws (n : nat) (reqs : list (list task)) (mem : list evalStruct)
    (sched : list thread_id) (c : nat) (cl : caller) :
  callers (run sched (start (fresh_pool n) reqs mem)) !! c = Some cl →
  eval_at cl ≠ EThrow.
Proof. apply bounds_inv_run. Qed.


(** ** The availability flag *)


Lemma availability_free_idle (n : nat) (reqs : list task) (mem : list evalStruct)
    (sched : list thread_id) (w : nat) (m : ThreadManager) :
  m_vpThreads (pool (run sched (start (fresh_pool n) [reqs] mem))) !! w = Some m →
  (free m = true →
     functionsQueue m = [] ∧ executing m = false ∧ exec_idle (exec_at m) = true) ∧
  (functionsQueue m = [] → executing m = false → m_mxQueue m = None →
     free m = true).
Proof.
  intros Hm.
  pose proof (lock_inv_run n [reqs] mem sched) as [La Lb].
  pose proof (flag_inv_run n reqs mem sched) as [F0 F1 F2 F3 F4].
  destruct (lookup_lt_is_Some_2 (callers (run sched (start (fresh_pool n) [reqs] mem))) 0)
    as [[pend0 pc0] Hcl0]; [lia|].
  specialize (La w m Hm). specialize (Lb 0 _ w m Hcl0).
  specialize (F1 w m Hm). specialize (F2 _ w m Hcl0 Hm).
  clear F3 F4. unfold executing. split.
  - intros Hf. destruct (F1 Hf) as [Hq Hidle]. split_and!; try done.
    by destruct (exec_at m).
  - intros Hq Hex Hlk. destruct (free m) eqn:Hf; [done|].
    destruct (F2 eq_refl) as [[_ [Hpc| Hpc]]|(t & Hq' & _)].
    + rewrite Hpc in La. specialize (La eq_refl). congruence.
    + simpl in *. subst pc0. specialize (Lb eq_refl Hm). congruence.
    + congruence.
Qed.



(** ** The mutex during the task body *)

(** C6 as the specification words it fails as soon as a body starts: the
    worker stands at line 95 inside the scope of [locker]. *)
Lemma body_runs_unlocked_fails :
  ¬ body_runs_unlocked (run until_body one_start).
Proof.
  intros H.
  apply (H 0 {| m_mxQueue := Some (Worker 0); functionsQueue := [one_task];
                free := false; m_id := 0; exec_at := XResult one_task |});
    reflexivity.
Qed.

Lemma flag_raised_only_at_XFree (th : thread_id) (s s' : state) (w : nat)
    (m m' : ThreadManager) :
  step th s = Some s' →
  m_vpThreads (pool s) !! w = Some m →
  m_vpThreads (pool s') !! w = Some m' →
  free m = false → free m' = true →
  th = Worker w ∧ exec_at m = XFree ∧ exec_at m' = XUnlock.
Proof.
  intros Hstep Hm Hm' Hf Hf'. destruct th as [c|w0].
  - apply step_caller_inv in Hstep as (cl & cl' & p' & Hcl & Hev & ->).
    destruct cl as [pend pc]. inv_evaluate_step Hev; simpl in *; inv_lookup;
      congruence.
  - apply step_worker_inv in Hstep as (m0 & m0' & mem' & Hm0 & Hex & ->).
    destruct m0 as [lk q fr id pc]. inv_execute_step Hex; simpl in *; inv_lookup;
      (done || congruence).
Qed.

Lemma exec_at_flow (th : thread_id) (s s' : state) (w : nat)
    (m m' : ThreadManager) :
  step th s = Some s' →
  m_vpThreads (pool s) !! w = Some m →
  m_vpThreads (pool s') !! w = Some m' →
  exec_at m' ≠ exec_at m →
  (exec_at m' = XFree → exec_at m = XPop) ∧
  (exec_at m' = XPop → ∃ f, exec_at m = XReady f) ∧
  (∀ f, exec_at m' = XReady f → exec_at m = XResult f).
Proof.
  intros Hstep Hm Hm' Hne. destruct th as [c|w0].
  - apply step_caller_inv in Hstep as (cl & cl' & p' & Hcl & Hev & ->).
    destruct cl as [pend pc]. inv_evaluate_step Hev; simpl in *; inv_lookup;
      congruence.
  - apply step_worker_inv in Hstep as (m0 & m0' & mem' & Hm0 & Hex & ->).
    destruct m0 as [lk q fr id pc]. inv_execute_step Hex; simpl in *; inv_lookup;
      try congruence; split_and!; intros; simplify_eq; eauto.
Qed.

(** C6, as the code has it: in every reachable state a worker that stands
    between the acquisition of line 88 (or the return of the wait) and the
    end of the loop body owns its own mutex, so a task body runs with the
    mutex held; the flag goes from false to true only by the worker's own
    statement of line 97, which is entered from the pop of line 96 alone,
    itself entered from the last statement of the body alone; and with one
    dispatching thread the flag is false all through the body. *)
Theorem body_runs_under_lock (n : nat) (reqs : list (list task))
    (mem : list evalStruct) (sched : list thread_id) (w : nat) (m : ThreadManager) :
  m_vpThreads (pool (run sched (start (fresh_pool n) reqs mem))) !! w = Some m →
  (exec_holds (exec_at m) = true → m_mxQueue m = Some (Worker w)) ∧
  (executing m = true → m_mxQueue m = Some (Worker w)) ∧
  (∀ th s' m',
     step th (run sched (start (fresh_pool n) reqs mem)) = Some s' →
     m_vpThreads (pool s') !! w = Some m' →
     (free m = false → free m' = true →
        th = Worker w ∧ exec_at m = XFree ∧ exec_at m' = XUnlock) ∧
     (exec_at m' ≠ exec_at m →
        (exec_at m' = XFree → exec_at m = XPop) ∧
        (exec_at m' = XPop → ∃ f, exec_at m = XReady f) ∧
        (∀ f, exec_at m' = XReady f → exec_at m = XResult f))) ∧
  (length reqs = 1 → executing m = true → free m = false).
Proof.
  intros Hm.
  pose proof (lock_inv_run n reqs mem sched) as [La _].
  split_and!.
  - by apply La.
  - intros Hex. apply (La w m Hm). unfold executing in Hex.
    by destruct (exec_at m).
  - intros th s' m' Hstep Hm'. split.
    + by eapply flag_raised_only_at_XFree.
    + by eapply exec_at_flow.
  - intros Hlen Hex. destruct reqs as [|r [|]]; try done.
    destruct (availability_free_idle n r mem sched w m Hm) as [Hfree _].
    destruct (free m); [|done].
    destruct (Hfree eq_refl) as (_ & Hne & _). congruence.
Qed.

Lemma body_runs_under_lock_witness :
  ∃ m, m_vpThreads (pool (run until_body one_start)) !! 0 = Some m ∧
       executing m = true ∧ m_mxQueue m = Some (Worker 0) ∧ free m = false.
Proof.
  exists {| m_mxQueue := Some (Worker 0); functionsQueue := [one_task];
            free := false; m_id := 0; exec_at := XResult one_task |}.
  destruct (body_runs_under_lock 1 [[one_task]] one_record until_body 0 _ eq_refl)
    as (_ & Hlk & _ & Hfree).
  split_and!; [reflexivity|reflexivity|exact (Hlk eq_refl)|exact (Hfree eq_refl eq_refl)].
Defined.

(** ** One iteration of the service loop *)


Lemma step_worker_first (s : state) (w : nat) (m m' : ThreadManager)
    (mem' : list evalStruct) :
  m_vpThreads (pool s) !! w = Some m →
  execute_step w m (vEvals s) = Some (m', mem') →
  step (Worker w) s = Some (update_worker w m' mem' s).
Proof. intros Hm Hex. unfold step. rewrite Hm. simpl. by rewrite Hex. Qed.

Lemma step_worker_next (s : state) (w : nat) (m m' : ThreadManager)
    (mem mem' : list evalStruct) :
  w < length (m_vpThreads (pool s)) →
  execute_step w m mem = Some (m', mem') →
  step (Worker w) (update_worker w m mem s) = Some (update_worker w m' mem' s).
Proof.
  intros Hw Hex. unfold step. simpl.
  rewrite list_lookup_insert_eq by done. simpl. rewrite Hex. simpl.
  unfold update_worker. simpl. by rewrite list_insert_insert_eq.
Qed.

Lemma run_cons (th : thread_id) (sched : list thread_id) (s s' : state) :
  step th s = Some s' → run (th :: sched) s = run sched s'.
Proof. intros H. unfold run. simpl. by rewrite H. Qed.



(** ** [evaluate] run alone is the caller's thread run alone *)

Lemma step_caller_first (s : state) (c : nat) (cl cl' : caller) (p' : ThreadPool) :
  callers s !! c = Some cl →
  evaluate_step c cl (pool s) = Some (cl', p') →
  step (Caller c) s = Some (with_caller c cl' p' s).
Proof. intros Hc Hev. unfold step. rewrite Hc. simpl. by rewrite Hev. Qed.

Lemma step_caller_next (s : state) (c : nat) (cl cl' : caller) (p p' : ThreadPool) :
  c < length (callers s) →
  evaluate_step c cl p = Some (cl', p') →
  step (Caller c) (with_caller c cl p s) = Some (with_caller c cl' p' s).
Proof.
  intros Hc Hev. unfold step. simpl.
  rewrite list_lookup_insert_eq by done. simpl. rewrite Hev. simpl.
  unfold with_caller. simpl. by rewrite list_insert_insert_eq.
Qed.

Lemma step_caller_blocked (s : state) (c : nat) (cl : caller) (p : ThreadPool) :
  c < length (callers s) →
  evaluate_step c cl p = None →
  step (Caller c) (with_caller c cl p s) = None.
Proof.
  intros Hc Hev. unfold step. simpl.
  rewrite list_lookup_insert_eq by done. simpl. by rewrite Hev.
Qed.

Lemma set_vpThreads_id (p : ThreadPool) : set_vpThreads (m_vpThreads p) p = p.
Proof. by destruct p. Qed.

Lemma evaluate_step_at (i : nat) (pend : list task) (pc : eval_pc)
    (p : ThreadPool) (m : ThreadManager)
    (k : ThreadManager → option (eval_pc * ThreadManager)) :
  m_vpThreads p !! i = Some m →
  at_manager i (caller_at pend pc) p k =
    '(pc', m') ← k m;
    Some (caller_at pend pc', set_vpThreads (<[i := m']> (m_vpThreads p)) p).
Proof. intros Hi. unfold at_manager. by rewrite Hi. Qed.

Lemma evaluate_loop_alone (k : nat) :
  ∀ (i c : nat) (s : state) (p : ThreadPool) (t : task) (r : list task),
    c < length (callers s) →
    m_nThreads p = Z.of_nat (i + k) →
    i + k = length (m_vpThreads p) →
    match evaluate_loop k i t p with
    | Return b p' =>
        ∃ n, run (replicate n (Caller c))
               (with_caller c (caller_at (t :: r) (EScan i)) p s) =
             with_caller c (caller_at (t :: r) (EReturn b)) p' s
    | Blocked j =>
        ∃ n, run (replicate n (Caller c))
               (with_caller c (caller_at (t :: r) (EScan i)) p s) =
             with_caller c (caller_at (t :: r) (ELock j)) p s ∧
             step (Caller c) (with_caller c (caller_at (t :: r) (ELock j)) p s) = None
    | Throw_out_of_range => False
    end.
Proof.
  induction k as [|k IH]; intros i c s p t r Hc Hn Hlen.
  - cbn [evaluate_loop]. exists 1. cbn [replicate].
    erewrite run_cons; [reflexivity|]. apply step_caller_next; [done|].
    unfold evaluate_step. simpl.
    destruct (Z.ltb_spec (Z.of_nat i) (m_nThreads p)); [lia|done].
  - cbn [evaluate_loop].
    destruct (m_vpThreads p !! i) as [m|] eqn:Hi;
      [|apply lookup_ge_None in Hi; lia].
    assert (evaluate_step c (caller_at (t :: r) (EScan i)) p =
            Some (caller_at (t :: r) (if free m then ELock i else EScan (S i)), p))
      as Hscan.
    { unfold evaluate_step, at_manager. simpl.
      destruct (Z.ltb_spec (Z.of_nat i) (m_nThreads p)); [|lia].
      rewrite Hi. simpl. rewrite list_insert_id by done.
      by rewrite set_vpThreads_id. }
    destruct (free m) eqn:Hf.
    + destruct (m_mxQueue m) as [o|] eqn:Hlk.
      * exists 1. split.
        -- cbn [replicate]. erewrite run_cons; [reflexivity|].
           by apply step_caller_next.
        -- apply step_caller_blocked; [done|].
           unfold evaluate_step. cbn [eval_at caller_at].
           rewrite (evaluate_step_at _ _ _ _ _ _ Hi). by rewrite Hlk.
      * exists 6.
        pose proof (lookup_lt_Some _ _ _ Hi) as Hlt.
        cbn [replicate]. erewrite run_cons by (by eapply step_caller_next).
        erewrite run_cons.
        2:{ eapply step_caller_next; [done|]. unfold evaluate_step.
            cbn [eval_at caller_at]. rewrite (evaluate_step_at _ _ _ _ _ _ Hi).
            rewrite Hlk. reflexivity. }
        do 3 (erewrite run_cons;
          [|eapply step_caller_next; [done|]; unfold evaluate_step;
            cbn [eval_at caller_at pending];
            erewrite evaluate_step_at; [reflexivity|];
            cbn [m_vpThreads set_vpThreads];
            rewrite ?list_insert_insert_eq;
            by apply list_lookup_insert_eq]).
        erewrite run_cons.
        2:{ eapply step_caller_next; [done|]. reflexivity. }
        unfold run. cbn [foldl]. unfold with_caller. f_equal.
        unfold set_vpThreads. cbn [m_vpThreads m_nThreads]. f_equal.
        rewrite ?list_insert_insert_eq.
        erewrite alter_as_insert
          by (apply list_lookup_insert_eq; done).
        rewrite list_insert_insert_eq. f_equal.
        destruct m; simpl in *; by subst.
    + specialize (IH (S i) c s p t r Hc).
      rewrite <- Nat.add_succ_comm in Hn, Hlen. specialize (IH Hn Hlen).
      destruct (evaluate_loop k (S i) t p) as [b p'|j|].
      * destruct IH as [n Hrun]. exists (S n). cbn [replicate].
        erewrite run_cons by (by eapply step_caller_next). done.
      * destruct IH as [n [Hrun Hblk]]. exists (S n). cbn [replicate].
        erewrite run_cons by (by eapply step_caller_next). done.
      * done.
Qed.

Lemma evaluate_alone (s : state) (c : nat) (t : task) (r : list task) :
  pool_wf (pool s) →
  callers s !! c = Some (caller_at (t :: r) ECall) →
  match evaluate (cap_f t) (cap_param1 t) (cap_param2 t) (cap_result t)
          (cap_ready t) (pool s) with
  | Return b p' =>
      ∃ n, run (replicate n (Caller c)) s =
           with_caller c (caller_at (t :: r) (EReturn b)) p' s
  | Blocked j =>
      ∃ n, run (replicate n (Caller c)) s =
           with_caller c (caller_at (t :: r) (ELock j)) (pool s) s ∧
           step (Caller c) (run (replicate n (Caller c)) s) = None
  | Throw_out_of_range => False
  end.
Proof.
  intros Hwf Hc. unfold evaluate, make_task.
  replace (Task (cap_f t) (cap_param1 t) (cap_param2 t) (cap_result t) (cap_ready t))
    with t by (by destruct t).
  pose proof (lookup_lt_Some _ _ _ Hc) as Hlt.
  pose proof (evaluate_loop_alone (Z.to_nat (m_nThreads (pool s))) 0 c s (pool s) t r Hlt)
    as H.
  unfold pool_wf in Hwf. rewrite Hwf, Nat2Z.id in H |- *.
  specialize (H eq_refl eq_refl).
  assert (step (Caller c) s =
          Some (with_caller c (caller_at (t :: r) (EScan 0)) (pool s) s)) as H0.
  { by eapply step_caller_first. }
  destruct (evaluate_loop _ 0 t (pool s)) as [b p'|j|]; [| |done].
  - destruct H as [n Hn]. exists (S n). cbn [replicate].
    by rewrite (run_cons _ _ _ _ H0).
  - destruct H as [n [Hn Hb]]. exists (S n). cbn [replicate].
    rewrite (run_cons _ _ _ _ H0), Hn. done.
Qed.

(** In the interleaving semantics, then: a caller that nobody interleaves
    with comes back with false and an untouched pool when every worker is
    busy, and otherwise with true and the first free worker claimed. *)
Lemma caller_alone_rejects (s : state) (c : nat) (t : task) (r : list task) :
  pool_wf (pool s) →
  callers s !! c = Some (caller_at (t :: r) ECall) →
  (∀ j m, m_vpThreads (pool s) !! j = Some m → free m = false) →
  ∃ n, run (replicate n (Caller c)) s =
       with_caller c (caller_at (t :: r) (EReturn false)) (pool s) s.
Proof.
  intros Hwf Hc Hbusy. pose proof (evaluate_alone s c t r Hwf Hc) as H.
  unfold evaluate, make_task in H.
  replace (Task (cap_f t) (cap_param1 t) (cap_param2 t) (cap_result t) (cap_ready t))
    with t in H by (by destruct t).
  rewrite evaluate_loop_none_free in H; [done| |done].
  unfold pool_wf in Hwf. rewrite Hwf, Nat2Z.id. lia.
Qed.

Lemma caller_alone_claims (s : state) (c : nat) (t : task) (r : list task)
    (i : nat) (m : ThreadManager) :
  pool_wf (pool s) →
  callers s !! c = Some (caller_at (t :: r) ECall) →
  m_vpThreads (pool s) !! i = Some m →
  free m = true →
  m_mxQueue m = None →
  (∀ j m', j < i → m_vpThreads (pool s) !! j = Some m' → free m' = false) →
  ∃ n, run (replicate n (Caller c)) s =
       with_caller c (caller_at (t :: r) (EReturn true))
         (set_vpThreads (<[i := claim t m]> (m_vpThreads (pool s))) (pool s)) s.
Proof.
  intros Hwf Hc Hi Hf Hlk Hbusy. pose proof (evaluate_alone s c t r Hwf Hc) as H.
  unfold evaluate, make_task in H.
  replace (Task (cap_f t) (cap_param1 t) (cap_param2 t) (cap_result t) (cap_ready t))
    with t in H by (by destruct t).
  rewrite (evaluate_loop_first_free _ 0 t (pool s) i m) in H; try done.
  - pose proof (lookup_lt_Some _ _ _ Hi). unfold pool_wf in Hwf.
    rewrite Hwf, Nat2Z.id. lia.
  - intros j m' [_ Hj]. by apply Hbusy.
Qed.

(** ** Two callers at once *)

(** C1 fails on the code: the flag is read at line 55, before the mutex is
    taken at line 56.  Two callers both read the flag of the one free worker,
    both take the mutex in turn, both push and both return true; the worker
    then serves the first task and sets its flag with the second task still
    queued. *)
Theorem evaluate_race_claims_twice :
  eval_at <$> callers (run race_reads race_start) = [ELock 0; ELock 0] ∧
  m_mxQueue <$> m_vpThreads (pool (run race_reads race_start)) = [None] ∧
  eval_at <$> callers (run race_schedule race_start) =
    [EReturn true; EReturn true] ∧
  functionsQueue <$> m_vpThreads (pool (run race_schedule race_start)) =
    [[race_task_0; race_task_1]] ∧
  free <$> m_vpThreads (pool (run race_then_serve race_start)) = [true] ∧
  functionsQueue <$> m_vpThreads (pool (run race_then_serve race_start)) =
    [[race_task_1]].
Proof. split_and!; reflexivity. Qed.

(** After that run nobody holds the mutex, and yet the flag of worker 0 is
    true over a non-empty queue. *)
Lemma availability_iff_fails_after_race :
  m_mxQueue <$> m_vpThreads (pool (run race_then_serve race_start)) = [None] ∧
  ¬ availability_iff (run race_then_serve race_start).
Proof.
  split; [reflexivity|]. intros H.
  destruct (H 0 {| m_mxQueue := None; functionsQueue := [race_task_1];
                   free := true; m_id := 0; exec_at := XLock |} eq_refl)
    as [Himp _].
  destruct (Himp eq_refl) as [Hq _]. discriminate Hq.
Qed.

(** ** The run of [main] *)

Lemma vEvals_length_step (s : state) (th : thread_id) (s' : state) :
  step th s = Some s' → length (vEvals s') = length (vEvals s).
Proof.
  intros Hstep. destruct th as [c|w].
  - by apply step_caller_inv in Hstep as (cl & cl' & p' & Hcl & Hev & ->).
  - apply step_worker_inv in Hstep as (m & m' & mem' & Hm & Hex & ->).
    destruct m as [lk q fr id pc]. inv_execute_step Hex; simpl; try done.
    + by eapply body_result_length.
    + apply body_ready_length.
Qed.

Lemma vEvals_length_run (sched : list thread_id) (s : state) :
  length (vEvals (run sched s)) = length (vEvals s).
Proof.
  apply (invariant_run (λ s', length (vEvals s') = length (vEvals s))); [done|].
  intros s1 th s2 H1 Hstep. by rewrite (vEvals_length_step _ _ _ Hstep).
Qed.

Lemma start_task_inv (n : nat) (reqs : list task) (mem : list evalStruct) :
  (∀ t, t ∈ reqs → cap_result t < length mem ∧ cap_ready t < length mem) →
  task_inv reqs (start (fresh_pool n) [reqs] mem).
Proof.
  intros Hrange.
  assert (∀ t, waiting (callers (start (fresh_pool n) [reqs] mem)) t ↔ t ∈ reqs) as Hw.
  { intros t. split.
    - intros (c & cl & Hc & Ht). destruct c as [|c]; simplify_eq/=. done.
    - intros Ht. by exists 0, {| pending := reqs; eval_at := ECall |}. }
  assert (∀ t, ¬ queued (m_vpThreads (pool (start (fresh_pool n) [reqs] mem))) t) as Hq.
  { intros t (w & m & Hm & Ht). apply ctor_loop_lookup_Some in Hm as [_ ->].
    simpl in Ht. by apply elem_of_nil in Ht. }
  split.
  - done.
  - intros t Ht. by apply Hw.
  - intros t Ht. by destruct (Hq t).
  - intros t Ht. left. by apply Hw.
  - intros c cl t r Hc _ Hpc. destruct c as [|c]; simplify_eq/=.
  - intros w m Hm. apply ctor_loop_lookup_Some in Hm as [_ ->]. done.
Qed.

Lemma main_requests_lookup (i : nat) (t : task) :
  main_requests !! i = Some t →
  ∃ e, vEvals_init !! i = Some e ∧ t = request i e.
Proof.
  unfold main_requests. rewrite list_lookup_imap.
  destruct (vEvals_init !! i) as [e|]; [|done]. intros [= <-]. eauto.
Qed.

Lemma main_requests_compatible : compatible main_requests.
Proof.
  intros t t' Ht Ht' Heq.
  apply list_elem_of_lookup in Ht as [i Hi], Ht' as [j Hj].
  apply main_requests_lookup in Hi as (e & He & ->).
  apply main_requests_lookup in Hj as (e' & He' & ->).
  simpl in Heq. subst j. congruence.
Qed.

Lemma task_inv_run (n : nat) (reqs : list task) (mem : list evalStruct)
    (sched : list thread_id) :
  compatible reqs →
  (∀ t, t ∈ reqs → cap_result t < length mem ∧ cap_ready t < length mem) →
  task_inv reqs (run sched (start (fresh_pool n) [reqs] mem)).
Proof.
  intros Hcompat Hrange. apply invariant_run.
  - by apply start_task_inv.
  - intros s th s'. by apply task_inv_step.
Qed.

Lemma main_requests_range (t : task) :
  t ∈ main_requests →
  cap_result t < length vEvals_init ∧ cap_ready t < length vEvals_init.
Proof.
  intros Ht. apply list_elem_of_lookup in Ht as [i Hi].
  apply main_requests_lookup in Hi as (e & He & ->).
  apply lookup_lt_Some in He. split; exact He.
Qed.

Lemma main_task_inv (sched : list thread_id) :
  task_inv main_requests (run sched main_start).
Proof.
  apply task_inv_run; [apply main_requests_compatible|apply main_requests_range].
Qed.

Lemma finished_spec (s : state) (c : nat) (cl : caller) :
  finished s = true → callers s !! c = Some cl → pending cl = [].
Proof.
  unfold finished. rewrite forallb_forall. intros H Hc.
  specialize (H cl). rewrite <- list_elem_of_In in H.
  specialize (H (list_elem_of_lookup_2 _ _ _ Hc)). by destruct (pending cl).
Qed.

Lemma drained_spec (s : state) (w : nat) (m : ThreadManager) :
  drained s = true → m_vpThreads (pool s) !! w = Some m → functionsQueue m = [].
Proof.
  unfold drained. rewrite forallb_forall. intros H Hw.
  specialize (H m). rewrite <- list_elem_of_In in H.
  specialize (H (list_elem_of_lookup_2 _ _ _ Hw)). by destruct (functionsQueue m).
Qed.

Lemma main_slot_done (sched : list thread_id) (i : nat) (e0 : evalStruct) :
  finished (run sched main_start) = true →
  drained (run sched main_start) = true →
  vEvals_init !! i = Some e0 →
  ∃ e, vEvals (run sched main_start) !! i = Some e ∧ readyFlag e = true ∧
       func e0 (param1 e0) (param2 e0) = Some (result e).
Proof.
  intros Hfin Hdr He0.
  pose proof (main_task_inv sched) as [_ _ _ T4 _ _].
  assert (request i e0 ∈ main_requests) as Hin.
  { apply list_elem_of_lookup. exists i. unfold main_requests.
    by rewrite list_lookup_imap, He0. }
  destruct (T4 _ Hin) as [(c & cl & Hc & Ht)|[(w & m & Hm & Ht)|Hdone]].
  - rewrite (finished_spec _ _ _ Hfin Hc) in Ht. by apply elem_of_nil in Ht.
  - rewrite (drained_spec _ _ _ Hdr Hm) in Ht. by apply elem_of_nil in Ht.
  - destruct Hdone as [(v & Hv & Hres) Hrdy]. simpl in *.
    destruct (vEvals (run sched main_start) !! i) as [e|]; [|done].
    simpl in *. exists e. split_and!; congruence.
Qed.

(** ** A set ready flag comes with the stored result *)

Section ReadyInv.
Context (all : list task) (Hcompat : compatible all) (Hpaired : paired all).

Lemma ready_inv_step (s : state) (th : thread_id) (s' : state) :
  task_inv all s → ready_inv all s → step th s = Some s' → ready_inv all s'.
Proof.
  intros HT HR Hstep. destruct th as [c|w].
  - apply step_caller_inv in Hstep as (cl & cl' & p' & Hcl & Hev & ->). exact HR.
  - apply step_worker_inv in Hstep as (m & m' & mem' & Hm & Hex & ->).
    pose proof (task_exec _ _ HT w m Hm) as Hok.
    assert (∀ t, t ∈ functionsQueue m → t ∈ all) as Hall.
    { intros t Ht. apply (task_queue _ _ HT). by exists w, m. }
    destruct m as [lk q fr id pc]. unfold exec_ok in Hok. simpl in *.
    destruct pc as [| | | |g|g| | | |]; inv_execute_step Hex; try exact HR.
    + (* line 60 *)
      match goal with H : body_result ?t0 _ = Some _ |- _ => rename t0 into g end.
      destruct Hok as [q0 ->].
      assert (g ∈ all) as Hf by (apply Hall; left).
      intros t Ht Hr. simpl in *.
      eapply result_written_body_result with (t' := g); eauto.
      apply HR; [done|]. unfold body_result in *.
      destruct (cap_f g (cap_param1 g) (cap_param2 g)); simplify_eq/=.
      by rewrite readyFlag_alter_write_result in Hr.
    + (* line 61 *)
      match type of Hok with _ ∧ result_written ?t0 _ => rename t0 into g end.
      destruct Hok as [[q0 ->] Hw].
      assert (g ∈ all) as Hf by (apply Hall; left).
      intros t Ht Hr. simpl in *. apply result_written_body_ready.
      unfold body_ready in Hr. rewrite readyFlag_alter_write_readyFlag in Hr.
      case_decide as Heq; [|by apply HR].
      destruct Hw as (v & Hv & Hres). exists v.
      rewrite <- (Hpaired g t Hf Ht Heq).
      rewrite <- (Hcompat g t Hf Ht (Hpaired g t Hf Ht Heq)). done.
Qed.

End ReadyInv.

Lemma main_requests_paired : paired main_requests.
Proof.
  intros t t' Ht Ht' Heq.
  apply list_elem_of_lookup in Ht as [i Hi], Ht' as [j Hj].
  apply main_requests_lookup in Hi as (e & He & ->).
  apply main_requests_lookup in Hj as (e' & He' & ->).
  done.
Qed.

Lemma ready_inv_run (n : nat) (reqs : list task) (mem : list evalStruct)
    (sched : list thread_id) :
  compatible reqs →
  paired reqs →
  (∀ t, t ∈ reqs → cap_result t < length mem ∧ cap_ready t < length mem) →
  (∀ t, t ∈ reqs → readyFlag <$> mem !! cap_ready t ≠ Some true) →
  ready_inv reqs (run sched (start (fresh_pool n) [reqs] mem)).
Proof.
  intros Hcompat Hpaired Hrange Hclear.
  apply (invariant_run (λ s, task_inv reqs s ∧ ready_inv reqs s)).
  - split.
    + by apply start_task_inv.
    + intros t Ht Hr. by destruct (Hclear t Ht).
  - intros s th s' [HT HR] Hstep. split.
    + by eapply task_inv_step.
    + by eapply ready_inv_step.
Qed.

Lemma main_ready_inv (sched : list thread_id) :
  ready_inv main_requests (run sched main_start).
Proof.
  apply ready_inv_run.
  - apply main_requests_compatible.
  - apply main_requests_paired.
  - apply main_requests_range.
  - intros t Ht Hr. apply list_elem_of_lookup in Ht as [i Hi].
    apply main_requests_lookup in Hi as (e & He & ->). simpl in Hr.
    rewrite He in Hr. apply vEvals_init_lookup in He as [_ ->]. done.
Qed.

(** ** The two statements of the task body *)

(** C4: the body of a task built from [f], [a], [b] first stores [f a b] in
    the result slot, the ready flag still as it was, and only in its next
    statement sets the ready flag; so, the flag being false beforehand, at
    every point of the body a true ready flag comes with the result [f a b];
    and when that task is dispatched to a pool of any size, in every
    reachable state a true ready flag comes with the result [f a b]. *)
Theorem task_body_result_before_ready (f : func_t) (a b v : Z) (res rdy w : nat)
    (m : ThreadManager) (mem : list evalStruct) (e_res e_rdy : evalStruct) :
  f a b = Some v →
  mem !! res = Some e_res →
  mem !! rdy = Some e_rdy →
  exec_at m = XResult (make_task f a b res rdy) →
  ∃ mem1 mem2,
    execute_step w m mem =
      Some (set_exec_at (XReady (make_task f a b res rdy)) m, mem1) ∧
    execute_step w (set_exec_at (XReady (make_task f a b res rdy)) m) mem1 =
      Some (set_exec_at XPop m, mem2) ∧
    run_task (make_task f a b res rdy) mem = Some mem2 ∧
    result <$> mem1 !! res = Some v ∧
    readyFlag <$> mem1 !! rdy = Some (readyFlag e_rdy) ∧
    result <$> mem2 !! res = Some v ∧
    readyFlag <$> mem2 !! rdy = Some true ∧
    (readyFlag e_rdy = false →
     ∀ mem', mem' ∈ [mem; mem1; mem2] →
       readyFlag <$> mem' !! rdy = Some true → result <$> mem' !! res = Some v) ∧
    (readyFlag e_rdy = false →
     ∀ n sched,
       readyFlag <$>
         vEvals (run sched (start (fresh_pool n) [[make_task f a b res rdy]] mem))
           !! rdy = Some true →
       result <$>
         vEvals (run sched (start (fresh_pool n) [[make_task f a b res rdy]] mem))
           !! res = Some v).
Proof.
  intros Hv Hres Hrdy Hpc.
  exists (alter (write_result v) res mem),
    (alter (write_readyFlag true) rdy (alter (write_result v) res mem)).
  assert (result <$> alter (write_result v) res mem !! res = Some v) as R1.
  { rewrite result_alter_write_result, decide_True by done. by rewrite Hres. }
  assert (readyFlag <$> alter (write_result v) res mem !! rdy = Some (readyFlag e_rdy)) as R2.
  { by rewrite readyFlag_alter_write_result, Hrdy. }
  assert (result <$> alter (write_readyFlag true) rdy
            (alter (write_result v) res mem) !! res = Some v) as R3.
  { by rewrite result_alter_write_readyFlag. }
  assert (readyFlag <$> alter (write_readyFlag true) rdy
            (alter (write_result v) res mem) !! rdy = Some true) as R4.
  { rewrite readyFlag_alter_write_readyFlag, decide_True by done.
    by destruct (alter (write_result v) res mem !! rdy). }
  split_and!; try done.
  - unfold execute_step. rewrite Hpc. unfold body_result. simpl. by rewrite Hv.
  - unfold run_task, body_result. simpl. by rewrite Hv.
  - intros Hfalse mem' Hin. rewrite !elem_of_cons, elem_of_nil in Hin.
    destruct Hin as [->|[->|[->|[]]]]; intros Hobs;
      [rewrite Hrdy in Hobs; simpl in Hobs; congruence
      |rewrite R2 in Hobs; congruence
      |exact R3].
  - intros Hfalse n sched Hobs.
    destruct (ready_inv_run n [make_task f a b res rdy] mem sched)
      with (t := make_task f a b res rdy) as (v' & Hv' & Hres').
    + intros t t' Ht Ht' _. apply list_elem_of_singleton in Ht, Ht'. by subst.
    + intros t t' Ht Ht' _. apply list_elem_of_singleton in Ht, Ht'. by subst.
    + intros t Ht. apply list_elem_of_singleton in Ht as ->. simpl.
      split; by eapply lookup_lt_Some.
    + intros t Ht. apply list_elem_of_singleton in Ht as ->. simpl.
      rewrite Hrdy. simpl. congruence.
    + apply list_elem_of_singleton. reflexivity.
    + exact Hobs.
    + simpl in Hv', Hres'. congruence.
Qed.

(** ** The run of [main], at every moment *)

(** At every moment of every run of [main], a record whose ready flag is
    set holds the value of its function on its parameters. *)
Lemma main_ready_implies_result (sched : list thread_id) (i : nat) (e0 e : evalStruct) :
  vEvals_init !! i = Some e0 →
  vEvals (run sched main_start) !! i = Some e →
  readyFlag e = true →
  func e0 (param1 e0) (param2 e0) = Some (result e).
Proof.
  intros He0 He Hr.
  pose proof (main_ready_inv sched (request i e0)) as H.
  destruct H as (v & Hv & Hres).
  - apply list_elem_of_lookup. exists i. unfold main_requests.
    by rewrite list_lookup_imap, He0.
  - simpl. by rewrite He, <- Hr.
  - simpl in *. rewrite He in Hres. simpl in Hres. congruence.
Qed.

(** [at] never throws, and [front] and [pop] never meet an empty queue: a
    worker is lost only to a task whose function has no value. *)
Lemma main_never_stuck (sched : list thread_id) :
  (∀ c cl, callers (run sched main_start) !! c = Some cl → eval_at cl ≠ EThrow) ∧
  (∀ w m, m_vpThreads (pool (run sched main_start)) !! w = Some m →
     exec_at m ≠ XAbort).
Proof.
  split.
  - apply (bounds_inv_run (Z.to_nat nThreads) [main_requests] vEvals_init sched).
  - intros w m Hm Hpc.
    pose proof (front_inv_run (Z.to_nat nThreads) [main_requests] vEvals_init
                  sched w m Hm) as Hf.
    unfold front_ok in Hf. rewrite Hpc in Hf. destruct Hf as (f & q & Hq & Hnone).
    assert (f ∈ main_requests) as Hin.
    { apply (task_queue _ _ (main_task_inv sched)). exists w, m.
      split; [done|]. rewrite Hq. left. }
    apply list_elem_of_lookup in Hin as [i Hi].
    apply main_requests_lookup in Hi as (e & He & ->). simpl in Hnone.
    by apply (vEvals_init_defined i e He).
Qed.

(** ** The demo never divides by zero *)

(** C10: [myFunc_4] divides its first argument by its second and has no
    result for a zero divisor; among the records of [main] it is the function
    of exactly those with [i mod 4 = 3], that is [i = 3] and [i = 7], whose
    parameters are [(2i, i)], so the divisor is not zero and the quotient is
    defined; every record's evaluation is defined, and in no run of [main]
    does a worker end in undefined behaviour. *)
Theorem demo_divide_never_by_zero (i : nat) (e : evalStruct) :
  vEvals_init !! i = Some e →
  (∀ a, myFunc_4 a 0%Z = None) ∧
  (∀ a b, b ≠ 0%Z → myFunc_4 a b = Int.of_Z (a ÷ b)%Z) ∧
  (func e = myFunc_4 ↔ i mod 4 = 3) ∧
  (func e = myFunc_4 →
     (i = 3 ∨ i = 7) ∧
     param1 e = (2 * Z.of_nat i)%Z ∧ param2 e = Z.of_nat i ∧
     param2 e ≠ 0%Z ∧
     myFunc_4 (param1 e) (param2 e) = Some (param1 e ÷ param2 e)%Z) ∧
  func e (param1 e) (param2 e) ≠ None ∧
  (∀ sched w m, m_vpThreads (pool (run sched main_start)) !! w = Some m →
     exec_at m ≠ XAbort).
Proof.
  intros He. apply vEvals_init_lookup in He as [Hi ->].
  unfold nEvaluations in Hi. cbn [func param1 param2].
  assert ((match i mod 4 with
           | 0 => myFunc_1 | 1 => myFunc_2 | 2 => myFunc_3 | _ => myFunc_4
           end) = myFunc_4 → i = 3 ∨ i = 7) as Hdiv.
  { do 11 (destruct i as [|i]; [cbn;
      (by auto) || (intros H; exfalso; revert H; apply myFunc_4_differs; auto)|]).
    lia. }
  split_and!.
  - done.
  - intros a b Hb. unfold myFunc_4. by destruct (Z.eqb_spec b 0).
  - split.
    + intros H. destruct (Hdiv H) as [-> | ->]; reflexivity.
    + intros H. by rewrite H.
  - intros H. destruct (Hdiv H) as [-> | ->]; split_and!; auto; try done.
  - apply (vEvals_init_defined i
             (EvalStruct (2 * Z.of_nat i) (Z.of_nat i) 0 false
                (match i mod 4 with
                 | 0 => myFunc_1 | 1 => myFunc_2 | 2 => myFunc_3 | _ => myFunc_4
                 end))).
    unfold vEvals_init. rewrite list_lookup_fmap, lookup_seq_lt by done.
    cbn [fmap option_fmap option_map plus]. by rewrite funcs_lookup.
  - intros sched. apply main_never_stuck.
Qed.

Lemma demo_divide_never_by_zero_witness :
  ∃ e, vEvals_init !! 3 = Some e ∧ func e = myFunc_4 ∧ param2 e = 3%Z ∧
       myFunc_4 (param1 e) (param2 e) = Some 2%Z.
Proof.
  exists (EvalStruct 6 3 0 false myFunc_4).
  assert (vEvals_init !! 3 = Some (EvalStruct 6 3 0 false myFunc_4)) as H
    by reflexivity.
  destruct (demo_divide_never_by_zero 3 _ H) as (_ & _ & _ & Hd & _ & _).
  destruct (Hd eq_refl) as (_ & _ & Hp2 & _ & Hq).
  split_and!; [exact H|reflexivity|exact Hp2|exact Hq].
Defined.

(** C8 as the specification words it fails at slot 3: [funcs[3 % 4]] is
    [myFunc_4], the division, and the slot ends up holding [6 / 3 = 2]. *)
Lemma slot_3_multiplies_fails :
  finished (run (round_robin 110) main_start) = true ∧
  drained (run (round_robin 110) main_start) = true ∧
  ¬ slot_3_multiplies (run (round_robin 110) main_start).
Proof.
  split_and!; [vm_compute; reflexivity..|].
  intros [_ H]. vm_compute in H. discriminate H.
Qed.

(** C8, as the code has it: whatever the interleaving of [main] and the four
    workers, once [main] has placed its eleven requests and every queue is
    empty, each of the eleven records has its ready flag set and holds the
    value of its own function on its own parameters [(2i, i)], the function
    being add, subtract, multiply, divide for [i mod 4 = 0, 1, 2, 3]; slot 3
    divides and holds [6 / 3 = 2], slot 2 multiplies and holds [4 * 2 = 8]. *)
Theorem main_results (sched : list thread_id) :
  finished (run sched main_start) = true →
  drained (run sched main_start) = true →
  length (vEvals (run sched main_start)) = nEvaluations ∧
  (∀ i e0, vEvals_init !! i = Some e0 →
     param1 e0 = (2 * Z.of_nat i)%Z ∧ param2 e0 = Z.of_nat i ∧
     func e0 = match i mod 4 with
               | 0 => myFunc_1 | 1 => myFunc_2 | 2 => myFunc_3 | _ => myFunc_4
               end) ∧
  (∀ i e0, vEvals_init !! i = Some e0 →
     ∃ e, vEvals (run sched main_start) !! i = Some e ∧ readyFlag e = true ∧
          func e0 (param1 e0) (param2 e0) = Some (result e)) ∧
  (λ e, (result e, readyFlag e)) <$> vEvals (run sched main_start) = main_expected ∧
  func <$> vEvals_init !! 3 = Some myFunc_4 ∧
  result <$> vEvals (run sched main_start) !! 3 = Some 2%Z ∧
  func <$> vEvals_init !! 2 = Some myFunc_3 ∧
  result <$> vEvals (run sched main_start) !! 2 = Some 8%Z.
Proof.
  intros Hfin Hdr.
  pose proof (vEvals_length_run sched main_start) as Hlen.
  change (length (vEvals main_start)) with nEvaluations in Hlen.
  assert ((λ e, (result e, readyFlag e)) <$> vEvals (run sched main_start)
          = main_expected) as Hall.
  { apply list_eq. intros i. rewrite list_lookup_fmap.
    destruct (vEvals_init !! i) as [e0|] eqn:He0.
    - destruct (main_slot_done sched i e0 Hfin Hdr He0) as (e & -> & Hr & Hv).
      simpl. rewrite Hr.
      apply vEvals_init_lookup in He0 as [Hi ->]. unfold nEvaluations in Hi.
      revert Hv. generalize (result e). intros r Hv.
      do 11 (destruct i as [|i]; [vm_compute in Hv; by injection Hv as <-|]).
      lia.
    - apply lookup_ge_None in He0.
      change (length vEvals_init) with nEvaluations in He0.
      rewrite (proj2 (lookup_ge_None (vEvals (run sched main_start)) i)) by lia.
      symmetry. apply lookup_ge_None. simpl. unfold nEvaluations in He0. lia. }
  split_and!.
  - done.
  - intros i e0 He0. by apply vEvals_init_lookup in He0 as [_ ->].
  - intros i e0. by apply main_slot_done.
  - done.
  - reflexivity.
  - apply (f_equal (λ l, fst <$> l !! 3)) in Hall.
    rewrite list_lookup_fmap in Hall.
    by destruct (vEvals (run sched main_start) !! 3).
  - reflexivity.
  - apply (f_equal (λ l, fst <$> l !! 2)) in Hall.
    rewrite list_lookup_fmap in Hall.
    by destruct (vEvals (run sched main_start) !! 2).
Qed.

Lemma main_results_witness :
  (λ e, (result e, readyFlag e)) <$> vEvals (run (round_robin 110) main_start)
    = main_expected.
Proof.
  assert (finished (run (round_robin 110) main_start) = true) as Hfin
    by (vm_compute; reflexivity).
  assert (drained (run (round_robin 110) main_start) = true) as Hdr
    by (vm_compute; reflexivity).
  destruct (main_results (round_robin 110) Hfin Hdr) as (_ & _ & _ & H & _).
  exact H.
Defined.

(** ** Instances of the theorems above *)


Lemma evaluate_rejects_when_busy_witness :
  evaluate myFunc_1 3 4 0 0 busy_pool = Return false busy_pool.
Proof.
  apply evaluate_rejects_when_busy.
  - reflexivity.
  - intros [|[|j]] m Hm; [injection Hm as <-..|discriminate Hm]; reflexivity.
Defined.

Lemma task_body_result_before_ready_witness :
  (∃ mem1 mem2 : list evalStruct,
     run_task (make_task myFunc_1 3 4 0 0) one_record = Some mem2 ∧
     result <$> mem1 !! 0 = Some 7%Z ∧
     readyFlag <$> mem1 !! 0 = Some false ∧
     result <$> mem2 !! 0 = Some 7%Z ∧
     readyFlag <$> mem2 !! 0 = Some true) ∧
  result <$> vEvals (run (until_body ++ replicate 2 (Worker 0)) one_start) !! 0
    = Some 7%Z.
Proof.
  destruct (task_body_result_before_ready myFunc_1 3 4 7 0 0 0
              (set_exec_at (XResult (make_task myFunc_1 3 4 0 0)) (new_ThreadManager 0))
              one_record (EvalStruct 3 4 0 false myFunc_1) (EvalStruct 3 4 0 false myFunc_1)
              eq_refl eq_refl eq_refl eq_refl)
    as (mem1 & mem2 & _ & _ & Hrun & H1 & H2 & H3 & H4 & _ & Hsys).
  split.
  - exists mem1, mem2. split_and!; assumption.
  - exact (Hsys eq_refl 1 (until_body ++ replicate 2 (Worker 0)) eq_refl).
Defined.

(** * Further properties of the code *)

(** ** Who owns a taken mutex *)

Lemma owner_ok_insert (cs : list caller) (c : nat) (cl cl' : caller) (w : nat)
    (m : ThreadManager) :
  cs !! c = Some cl →
  owner_ok cs w m →
  (eval_holds (eval_at cl) = Some w → eval_holds (eval_at cl') = Some w) →
  owner_ok (<[c := cl']> cs) w m.
Proof.
  unfold owner_ok. intros Hc Hok Hkeep.
  destruct (m_mxQueue m) as [[c0|w0]|]; [|done..].
  destruct Hok as (cl0 & Hc0 & Hh). destruct (decide (c0 = c)) as [->|Hne].
  - exists cl'. split; [apply list_lookup_insert_eq; by eapply lookup_lt_Some|].
    apply Hkeep. congruence.
  - exists cl0. by rewrite list_lookup_insert_ne.
Qed.

Lemma owner_inv_step (s : state) (th : thread_id) (s' : state) :
  lock_inv s → owner_inv s → step th s = Some s' → owner_inv s'.
Proof.
  intros [La Lb] [O1 O2] Hstep. destruct th as [c|w].
  - apply step_caller_inv in Hstep as (cl & cl' & p' & Hcl & Hev & ->).
    pose proof (O2 c cl Hcl) as O2c.
    pose proof (Lb c cl) as Lbc.
    pose proof (lookup_lt_Some _ _ _ Hcl) as Hlt.
    destruct cl as [pend pc]. inv_evaluate_step Hev.
    all: split; simpl; intros; inv_lookup.
    all: try (by eauto).
    all: try (destruct O2c; [done|by right]).
    all: try (by destruct pend; auto).
    all: try (eapply owner_ok_insert; [eassumption|by apply O1|simpl; congruence]).
    all: unfold owner_ok; simpl.
    all: try (rewrite (Lbc _ _ Hcl eq_refl) by eassumption).
    all: try done; try (eexists; split; [by apply list_lookup_insert_eq|done]).
  - apply step_worker_inv in Hstep as (m & m' & mem' & Hm & Hex & ->).
    pose proof (La w m Hm) as Law. pose proof (O1 w m Hm) as O1w.
    destruct m as [lk q fr id pc]. inv_execute_step Hex.
    all: split; simpl; [|done]; intros; inv_lookup.
    all: try (by apply O1).
    all: unfold owner_ok in *; simpl in *.
    all: try done.
    all: try (rewrite Law in * by done; done).
Qed.

Lemma start_owner_inv (n : nat) (reqs : list (list task)) (mem : list evalStruct) :
  owner_inv (start (fresh_pool n) reqs mem).
Proof.
  split; simpl.
  - intros w m Hm. apply ctor_loop_lookup_Some in Hm as [_ ->]. done.
  - intros c cl Hc. apply list_lookup_fmap_Some in Hc as (r & -> & _). by left.
Qed.

Lemma owner_inv_run (n : nat) (reqs : list (list task)) (mem : list evalStruct)
    (sched : list thread_id) :
  owner_inv (run sched (start (fresh_pool n) reqs mem)).
Proof.
  apply (invariant_run (λ s, lock_inv s ∧ owner_inv s)).
  - split; [apply start_lock_inv|apply start_owner_inv].
  - intros s th s' [HL HO] Hstep. split.
    + by eapply lock_inv_step.
    + by eapply owner_inv_step.
Qed.

(** X1: whoever dispatches, in every reachable state the critical sections
    on the mutex of worker [i] exclude one another: while a caller stands
    between the [unique_lock] of line 56 and the end of its scope, worker [i]
    stands at the top of its loop or inside its wait, and no other caller
    stands inside that scope for the same worker. *)
Theorem mutual_exclusion (n : nat) (reqs : list (list task))
    (mem : list evalStruct) (sched : list thread_id) (i c : nat)
    (m : ThreadManager) (cl : caller) :
  m_vpThreads (pool (run sched (start (fresh_pool n) reqs mem))) !! i = Some m →
  callers (run sched (start (fresh_pool n) reqs mem)) !! c = Some cl →
  eval_holds (eval_at cl) = Some i →
  m_mxQueue m = Some (Caller c) ∧
  exec_holds (exec_at m) = false ∧
  (exec_at m = XLock ∨ exec_at m = XWait) ∧
  ∀ c' cl', callers (run sched (start (fresh_pool n) reqs mem)) !! c' = Some cl' →
    eval_holds (eval_at cl') = Some i → c' = c.
Proof.
  intros Hm Hc Hh.
  pose proof (lock_inv_run n reqs mem sched) as [La Lb].
  pose proof (Lb c cl i m Hc Hh Hm) as Hown.
  assert (exec_holds (exec_at m) = false) as Hout.
  { destruct (exec_holds (exec_at m)) eqn:Hx; [|done].
    specialize (La i m Hm Hx). congruence. }
  split_and!; [done|done| |].
  - destruct (exec_at m); try discriminate Hout; auto.
  - intros c' cl' Hc' Hh'. specialize (Lb c' cl' i m Hc' Hh' Hm). congruence.
Qed.

Lemma mutual_exclusion_witness :
  ∃ m, m_vpThreads (pool (run until_flipped one_start)) !! 0 = Some m ∧
       m_mxQueue m = Some (Caller 0) ∧ exec_at m = XLock.
Proof.
  exists {| m_mxQueue := Some (Caller 0); functionsQueue := []; free := false;
            m_id := 0; exec_at := XLock |}.
  destruct (mutual_exclusion 1 [[one_task]] one_record until_flipped 0 0
              {| m_mxQueue := Some (Caller 0); functionsQueue := []; free := false;
                 m_id := 0; exec_at := XLock |}
              {| pending := [one_task]; eval_at := EPush 0 |}
              eq_refl eq_refl eq_refl) as (Hown & _ & _ & _).
  split_and!; [reflexivity|exact Hown|reflexivity].
Defined.

(** X2: whoever dispatches, no mutex is held by a thread that cannot move.  In
    every reachable state the owner of the mutex of worker [w] is either that
    worker, inside the scope of its [locker], or a caller inside the scope of
    the [locker] of line 56 for worker [w]; and unless the worker has run
    into a task whose function has no value, the owner can take its next
    step. *)
Theorem lock_holder_can_step (n : nat) (reqs : list (list task))
    (mem : list evalStruct) (sched : list thread_id) (w : nat)
    (m : ThreadManager) (th : thread_id) :
  m_vpThreads (pool (run sched (start (fresh_pool n) reqs mem))) !! w = Some m →
  m_mxQueue m = Some th →
  ((th = Worker w ∧ exec_holds (exec_at m) = true) ∨
   (∃ c cl, th = Caller c ∧
      callers (run sched (start (fresh_pool n) reqs mem)) !! c = Some cl ∧
      eval_holds (eval_at cl) = Some w)) ∧
  (exec_at m ≠ XAbort →
   is_Some (step th (run sched (start (fresh_pool n) reqs mem)))).
Proof.
  pose proof (owner_inv_run n reqs mem sched) as [O1 O2].
  generalize dependent (run sched (start (fresh_pool n) reqs mem)).
  intros s O1 O2 Hm Hown.
  specialize (O1 w m Hm). unfold owner_ok in O1. rewrite Hown in O1.
  destruct th as [c|w'].
  - destruct O1 as (cl & Hc & Hh). split; [right; eauto|]. intros _.
    unfold step. rewrite Hc. simpl. specialize (O2 c cl Hc).
    destruct cl as [pend pc]. simpl in *.
    destruct pc; try discriminate Hh; injection Hh as ->;
      unfold evaluate_step, at_manager; simpl; rewrite ?Hm; simpl; try by eexists.
    destruct O2 as [|Hne]; [done|]. destruct pend; [done|by eexists].
  - destruct O1 as [-> Hx]. split; [by left|]. intros Hne.
    unfold step. rewrite Hm. simpl.
    destruct m as [lk q fr id pc]. simpl in *. unfold execute_step. simpl.
    destruct pc; try discriminate Hx; try done; repeat case_match; by eexists.
Qed.

Lemma lock_holder_can_step_witness :
  is_Some (step (Caller 0) (run until_flipped one_start)).
Proof.
  refine (proj2 (lock_holder_can_step 1 [[one_task]] one_record until_flipped 0
            {| m_mxQueue := Some (Caller 0); functionsQueue := []; free := false;
               m_id := 0; exec_at := XLock |} (Caller 0) eq_refl eq_refl) _).
  discriminate.
Defined.

(** ** The queue and the flag are written under the mutex *)

(** X3: whoever dispatches, every write to a worker's queue or availability
    flag is made by the thread that owns that worker's mutex, and a queue
    changes in two ways only: a caller appends one task at the back (line
    59), or the worker itself removes the task at the front (line 96). *)
Theorem queue_and_flag_written_by_owner (n : nat) (reqs : list (list task))
    (mem : list evalStruct) (sched : list thread_id) (th : thread_id)
    (s' : state) (w : nat) (m m' : ThreadManager) :
  step th (run sched (start (fresh_pool n) reqs mem)) = Some s' →
  m_vpThreads (pool (run sched (start (fresh_pool n) reqs mem))) !! w = Some m →
  m_vpThreads (pool s') !! w = Some m' →
  ((functionsQueue m' = functionsQueue m ∧ free m' = free m) ∨
   m_mxQueue m = Some th) ∧
  (functionsQueue m' = functionsQueue m ∨
   (∃ c t, th = Caller c ∧ functionsQueue m' = functionsQueue m ++ [t]) ∨
   (∃ t, th = Worker w ∧ functionsQueue m = t :: functionsQueue m')) ∧
  m_id m' = m_id m.
Proof.
  pose proof (lock_inv_run n reqs mem sched) as [La Lb].
  generalize dependent (run sched (start (fresh_pool n) reqs mem)).
  intros s La Lb Hstep Hm Hm'. destruct th as [c|w0].
  - apply step_caller_inv in Hstep as (cl & cl' & p' & Hcl & Hev & ->).
    pose proof (Lb c cl) as Lbc.
    destruct cl as [pend pc]. inv_evaluate_step Hev; simpl in *; inv_lookup.
    all: try (split_and!; by auto).
    all: split_and!; try done; try (by left).
    all: try (right; by eapply Lbc).
    right. left. eauto.
  - apply step_worker_inv in Hstep as (m0 & m0' & mem' & Hm0 & Hex & ->).
    pose proof (La w0 m0 Hm0) as Law.
    destruct m0 as [lk q fr id pc]. inv_execute_step Hex; simpl in *; inv_lookup.
    all: try (split_and!; by auto).
    all: split_and!; try done; try (by left).
    all: try (right; by apply Law).
    right. right. eauto.
Qed.

Lemma queue_and_flag_written_by_owner_witness :
  ∃ m', m_vpThreads (pool (run (replicate 5 (Caller 0)) one_start)) !! 0 = Some m' ∧
        functionsQueue m' = [one_task].
Proof.
  exists {| m_mxQueue := Some (Caller 0); functionsQueue := [one_task];
            free := false; m_id := 0; exec_at := XLock |}.
  split; [reflexivity|].
  destruct (queue_and_flag_written_by_owner 1 [[one_task]] one_record
              until_flipped (Caller 0)
              (run (replicate 5 (Caller 0)) one_start) 0
              {| m_mxQueue := Some (Caller 0); functionsQueue := []; free := false;
                 m_id := 0; exec_at := XLock |}
              {| m_mxQueue := Some (Caller 0); functionsQueue := [one_task];
                 free := false; m_id := 0; exec_at := XLock |}
              eq_refl eq_refl eq_refl) as (_ & _ & _).
  reflexivity.
Defined.

(** ** The shape of the pool *)

Lemma pool_shape_step (s : state) (th : thread_id) (s' : state) :
  step th s = Some s' →
  m_nThreads (pool s') = m_nThreads (pool s) ∧
  m_id <$> m_vpThreads (pool s') = m_id <$> m_vpThreads (pool s).
Proof.
  intros Hstep.
  assert (∀ (i : nat) (g : ThreadManager → ThreadManager) (v : list ThreadManager),
            (∀ m, m_id (g m) = m_id m) →
            m_id <$> alter g i v = m_id <$> v) as Halter.
  { intros i g v Hg. apply list_eq. intros j.
    rewrite !list_lookup_fmap, list_lookup_alter. case_decide; [subst|done].
    destruct (v !! j); simpl; by rewrite ?Hg. }
  assert (∀ (i : nat) (m m' : ThreadManager) (v : list ThreadManager),
            v !! i = Some m → m_id m' = m_id m →
            m_id <$> <[i := m']> v = m_id <$> v) as Hinsert.
  { intros i m m' v Hi Hid. rewrite list_fmap_insert, Hid.
    apply list_insert_id. by rewrite list_lookup_fmap, Hi. }
  destruct th as [c|w].
  - apply step_caller_inv in Hstep as (cl & cl' & p' & Hcl & Hev & ->).
    destruct cl as [pend pc]. inv_evaluate_step Hev; simpl; split; try done.
    all: try (by eapply Hinsert). by apply Halter.
  - apply step_worker_inv in Hstep as (m & m' & mem' & Hm & Hex & ->).
    destruct m as [lk q fr id pc]. inv_execute_step Hex; simpl; split; try done.
    all: by eapply Hinsert.
Qed.

Lemma pool_shape_run (n : nat) (reqs : list (list task))
    (mem : list evalStruct) (sched : list thread_id) :
  m_nThreads (pool (run sched (start (fresh_pool n) reqs mem))) = Z.of_nat n ∧
  m_id <$> m_vpThreads (pool (run sched (start (fresh_pool n) reqs mem))) =
    Z.of_nat <$> seq 0 n.
Proof.
  apply (invariant_run (λ s, m_nThreads (pool s) = Z.of_nat n ∧
            m_id <$> m_vpThreads (pool s) = Z.of_nat <$> seq 0 n)).
  - split; [reflexivity|]. simpl. rewrite ctor_loop_spec. simpl.
    rewrite <- list_fmap_compose. apply list_fmap_ext. intros _ j _. simpl. lia.
  - intros s th s' [I1 I2] Hstep.
    destruct (pool_shape_step s th s' Hstep) as [-> ->]. done.
Qed.

Lemma pool_length_run (n : nat) (reqs : list (list task))
    (mem : list evalStruct) (sched : list thread_id) :
  length (m_vpThreads (pool (run sched (start (fresh_pool n) reqs mem)))) = n.
Proof.
  destruct (pool_shape_run n reqs mem sched) as [_ H].
  apply (f_equal length) in H. by rewrite !length_fmap, length_seq in H.
Qed.

(** X4: the pool never gains or loses a worker.  In every state reachable
    from a pool of [n] workers the counter is [n], the vector holds [n]
    managers, and manager [i] still carries the identifier [i] it was
    constructed with. *)
Theorem pool_shape_constant (n : nat) (reqs : list (list task))
    (mem : list evalStruct) (sched : list thread_id) :
  m_nThreads (pool (run sched (start (fresh_pool n) reqs mem))) = Z.of_nat n ∧
  length (m_vpThreads (pool (run sched (start (fresh_pool n) reqs mem)))) = n ∧
  (∀ i m, m_vpThreads (pool (run sched (start (fresh_pool n) reqs mem))) !! i = Some m →
     m_id m = Z.of_nat i).
Proof.
  destruct (pool_shape_run n reqs mem sched) as [H1 H2].
  split_and!; [done|apply pool_length_run|].
  intros i m Hm. apply (f_equal (λ l, l !! i)) in H2.
  rewrite !list_lookup_fmap, Hm in H2. simpl in H2.
  destruct (seq 0 n !! i) as [j|] eqn:Hj; [|done].
  apply lookup_seq in Hj as [-> _]. by injection H2.
Qed.

(** ** What the pool writes in the caller's records *)

Lemma origin_inv_step (all : list task) (s : state) (th : thread_id) (s' : state) :
  origin_inv all s → step th s = Some s' → origin_inv all s'.
Proof.
  intros [G1 G2] Hstep. destruct th as [c|w].
  - apply step_caller_inv in Hstep as (cl & cl' & p' & Hcl & Hev & ->).
    pose proof (G1 c cl) as G1c.
    destruct cl as [pend pc]. inv_evaluate_step Hev.
    all: split; simpl; intros; inv_lookup; simpl in *.
    all: try (by eauto).
    + match goal with H : _ ∈ _ ++ [_] |- _ =>
        apply elem_of_app in H as [H|H];
          [by eauto|apply list_elem_of_singleton in H as ->]
      end.
      apply G1c; [done|left].
    + apply G1c; [done|]. destruct pend; [done|by right].
  - apply step_worker_inv in Hstep as (m & m' & mem' & Hm & Hex & ->).
    pose proof (G2 w m) as G2w.
    destruct m as [lk q fr id pc]. inv_execute_step Hex.
    all: split; simpl; intros; inv_lookup; simpl in *.
    all: try (by eauto).
    apply G2w; [done|by right].
Qed.

Lemma elem_of_concat {A} (x : A) (ls : list (list A)) :
  x ∈ concat ls ↔ ∃ l, l ∈ ls ∧ x ∈ l.
Proof.
  rewrite list_elem_of_In, in_concat. split; intros (l & H1 & H2); exists l.
  - by rewrite !list_elem_of_In.
  - by rewrite <- !list_elem_of_In.
Qed.

Lemma origin_inv_run (n : nat) (reqs : list (list task)) (mem : list evalStruct)
    (sched : list thread_id) :
  origin_inv (concat reqs) (run sched (start (fresh_pool n) reqs mem)).
Proof.
  apply invariant_run.
  - split; simpl.
    + intros c cl t Hc Ht. apply list_lookup_fmap_Some in Hc as (r & -> & Hr).
      apply elem_of_concat. exists r. split; [|done].
      by eapply list_elem_of_lookup_2.
    + intros w m t Hm Ht. apply ctor_loop_lookup_Some in Hm as [_ ->].
      by apply elem_of_nil in Ht.
  - intros s th s'. apply origin_inv_step.
Qed.

Lemma inputs_alter (g : evalStruct → evalStruct) (i : nat) (mem : list evalStruct) :
  (∀ e, inputs (g e) = inputs e) → inputs <$> alter g i mem = inputs <$> mem.
Proof.
  intros Hg. apply list_eq. intros j.
  rewrite !list_lookup_fmap, list_lookup_alter. case_decide; [subst|done].
  destruct (mem !! j); simpl; by rewrite ?Hg.
Qed.

Lemma footprint_step (s : state) (th : thread_id) (s' : state) :
  front_inv s → step th s = Some s' →
  inputs <$> vEvals s' = inputs <$> vEvals s ∧
  ∀ i, (∀ w m t, m_vpThreads (pool s) !! w = Some m → t ∈ functionsQueue m →
          cap_result t ≠ i ∧ cap_ready t ≠ i) →
    vEvals s' !! i = vEvals s !! i.
Proof.
  intros HF Hstep. destruct th as [c|w].
  - by apply step_caller_inv in Hstep as (cl & cl' & p' & Hcl & Hev & ->).
  - apply step_worker_inv in Hstep as (m & m' & mem' & Hm & Hex & ->).
    pose proof (HF w m Hm) as Hfront. unfold front_ok in Hfront.
    destruct m as [lk q fr id pc]. simpl in *.
    destruct pc as [| | | |g|g| | | |]; inv_execute_step Hex; try done.
    + match goal with H : body_result ?t0 _ = Some _ |- _ => rename t0 into g end.
      destruct Hfront as [q' ->]. unfold body_result in *.
      destruct (cap_f g (cap_param1 g) (cap_param2 g)) as [v|]; simplify_eq/=.
      split; [by apply inputs_alter|]. intros i Hi.
      destruct (Hi w _ g Hm) as [Hres _]; [left|].
      by rewrite list_lookup_alter_ne.
    + match type of Hm with context [XReady ?t0] => rename t0 into g end.
      destruct Hfront as [q' ->]. unfold body_ready.
      split; [by apply inputs_alter|]. intros i Hi.
      destruct (Hi w _ g Hm) as [_ Hrdy]; [left|].
      by rewrite list_lookup_alter_ne.
Qed.

Lemma footprint_run (n : nat) (reqs : list (list task))
    (mem : list evalStruct) (sched : list thread_id) :
  inputs <$> vEvals (run sched (start (fresh_pool n) reqs mem)) = inputs <$> mem ∧
  ∀ i, (∀ r t, r ∈ reqs → t ∈ r → cap_result t ≠ i ∧ cap_ready t ≠ i) →
    vEvals (run sched (start (fresh_pool n) reqs mem)) !! i = mem !! i.
Proof.
  cut ((front_inv (run sched (start (fresh_pool n) reqs mem)) ∧
        origin_inv (concat reqs) (run sched (start (fresh_pool n) reqs mem))) ∧
       inputs <$> vEvals (run sched (start (fresh_pool n) reqs mem)) = inputs <$> mem ∧
       ∀ i, (∀ r t, r ∈ reqs → t ∈ r → cap_result t ≠ i ∧ cap_ready t ≠ i) →
         vEvals (run sched (start (fresh_pool n) reqs mem)) !! i = mem !! i).
  { intros [_ H]. exact H. }
  apply (invariant_run (λ s,
    (front_inv s ∧ origin_inv (concat reqs) s) ∧
    inputs <$> vEvals s = inputs <$> mem ∧
    ∀ i, (∀ r t, r ∈ reqs → t ∈ r → cap_result t ≠ i ∧ cap_ready t ≠ i) →
      vEvals s !! i = mem !! i)).
  - split; [split|done]; [apply start_front_inv|apply (origin_inv_run n reqs mem [])].
  - intros s th s' [[HF HG] [I1 I2]] Hstep.
    destruct (footprint_step s th s' HF Hstep) as [F1 F2].
    split; [split|split].
    + by eapply front_inv_step.
    + by eapply origin_inv_step.
    + by rewrite F1.
    + intros i Hi. rewrite <- (I2 i Hi). apply F2. intros w m t Hm Ht.
      apply (origin_queue _ _ HG w m t Hm) in Ht.
      apply elem_of_concat in Ht as (r & Hr & Ht). by apply (Hi r t).
Qed.

(** X5: whoever dispatches, the pool writes nothing but the result and the
    ready flag its tasks refer to.  In every reachable state the records are
    as many as at the start, each with its [param1], [param2] and [func]
    unchanged; and a record that no request names as its result or ready
    slot is exactly as it was. *)
Theorem records_footprint (n : nat) (reqs : list (list task))
    (mem : list evalStruct) (sched : list thread_id) :
  inputs <$> vEvals (run sched (start (fresh_pool n) reqs mem)) = inputs <$> mem ∧
  length (vEvals (run sched (start (fresh_pool n) reqs mem))) = length mem ∧
  ∀ i, (∀ r t, r ∈ reqs → t ∈ r → cap_result t ≠ i ∧ cap_ready t ≠ i) →
    vEvals (run sched (start (fresh_pool n) reqs mem)) !! i = mem !! i.
Proof.
  destruct (footprint_run n reqs mem sched) as [H1 H2].
  split_and!; [done| |done].
  apply (f_equal length) in H1. by rewrite !length_fmap in H1.
Qed.

Lemma ready_kept_step (s : state) (th : thread_id) (s' : state) (i : nat) :
  step th s = Some s' →
  readyFlag <$> vEvals s !! i = Some true →
  readyFlag <$> vEvals s' !! i = Some true.
Proof.
  intros Hstep Hr. destruct th as [c|w].
  - by apply step_caller_inv in Hstep as (cl & cl' & p' & Hcl & Hev & ->).
  - apply step_worker_inv in Hstep as (m & m' & mem' & Hm & Hex & ->).
    destruct m as [lk q fr id pc]. revert Hr.
    inv_execute_step Hex; simpl; intros Hr; try done.
    + match goal with H : body_result ?t0 _ = Some _ |- _ =>
        unfold body_result in H;
        destruct (cap_f t0 (cap_param1 t0) (cap_param2 t0)); simplify_eq/=
      end.
      by rewrite readyFlag_alter_write_result.
    + unfold body_ready. rewrite readyFlag_alter_write_readyFlag.
      case_decide; [|done]. by destruct (vEvals s !! i).
Qed.

(** X6: a ready flag is never cleared.  From any state whatever, along any
    schedule, a record whose ready flag is true keeps it true: the only
    store to a ready flag is the [ready = true] of line 61. *)
Theorem ready_flag_never_cleared (s : state) (sched : list thread_id) (i : nat) :
  readyFlag <$> vEvals s !! i = Some true →
  readyFlag <$> vEvals (run sched s) !! i = Some true.
Proof.
  intros Hr.
  apply (invariant_run (λ s', readyFlag <$> vEvals s' !! i = Some true)); [done|].
  intros s1 th s2 H1 Hstep. by eapply ready_kept_step.
Qed.

Lemma ready_flag_never_cleared_witness :
  readyFlag <$> vEvals (run (replicate 3 (Worker 0))
                          (run (until_body ++ replicate 2 (Worker 0)) one_start))
    !! 0 = Some true.
Proof.
  apply (ready_flag_never_cleared
           (run (until_body ++ replicate 2 (Worker 0)) one_start)
           (replicate 3 (Worker 0)) 0).
  reflexivity.
Defined.

(** ** One dispatching thread: a queue of at most one task *)

Lemma concat_length_le {A} (ls : list (list A)) :
  Forall (λ l, length l ≤ 1) ls → length (concat ls) ≤ length ls.
Proof.
  induction 1 as [|l ls Hl _ IH]; [done|].
  simpl. rewrite length_app. lia.
Qed.

(** X7: with one dispatching thread no queue ever holds more than one task,
    and a worker whose flag is true holds none; so the tasks accepted and not
    yet served are never more than the workers. *)
Theorem queue_holds_at_most_one (n : nat) (reqs : list task)
    (mem : list evalStruct) (sched : list thread_id) :
  (∀ w m, m_vpThreads (pool (run sched (start (fresh_pool n) [reqs] mem))) !! w = Some m →
     length (functionsQueue m) ≤ 1 ∧
     (free m = true → functionsQueue m = [])) ∧
  length (concat (functionsQueue <$>
            m_vpThreads (pool (run sched (start (fresh_pool n) [reqs] mem))))) ≤ n.
Proof.
  pose proof (flag_inv_run n reqs mem sched) as [F0 F1 F2 _ _].
  pose proof (pool_length_run n [reqs] mem sched) as Hlen.
  generalize dependent (run sched (start (fresh_pool n) [reqs] mem)).
  intros s F0 F1 F2 Hlen.
  destruct (lookup_lt_is_Some_2 (callers s) 0) as [cl0 Hcl0]; [lia|].
  assert (∀ w m, m_vpThreads (pool s) !! w = Some m →
            length (functionsQueue m) ≤ 1 ∧
            (free m = true → functionsQueue m = [])) as Hone.
  { intros w m Hm. split.
    - destruct (free m) eqn:Hf.
      + destruct (F1 w m Hm Hf) as [-> _]. simpl. lia.
      + destruct (F2 cl0 w m Hcl0 Hm Hf) as [[-> _]|(t & -> & _)]; simpl; lia.
    - intros Hf. by destruct (F1 w m Hm Hf). }
  split; [exact Hone|]. subst n.
  rewrite <- (length_fmap functionsQueue (m_vpThreads (pool s))).
  apply concat_length_le, Forall_fmap, Forall_lookup.
  intros w m Hm. by destruct (Hone w m Hm).
Qed.

(** ** [front] and [pop] never meet an empty queue *)

(** X8: whoever dispatches, in every reachable state a worker that stands at
    the [front()] of line 94 or at the [pop()] of line 96 has a non-empty
    queue; a worker is lost to undefined behaviour only through a task whose
    function has no value for its arguments; and when every request has a
    value, no worker is ever lost. *)
Theorem front_and_pop_never_on_empty (n : nat) (reqs : list (list task))
    (mem : list evalStruct) (sched : list thread_id) (w : nat) (m : ThreadManager) :
  m_vpThreads (pool (run sched (start (fresh_pool n) reqs mem))) !! w = Some m →
  (exec_at m = XFront ∨ exec_at m = XPop → functionsQueue m ≠ []) ∧
  (exec_at m = XAbort →
     ∃ t q, functionsQueue m = t :: q ∧
            cap_f t (cap_param1 t) (cap_param2 t) = None) ∧
  ((∀ r t, r ∈ reqs → t ∈ r → is_Some (cap_f t (cap_param1 t) (cap_param2 t))) →
     exec_at m ≠ XAbort).
Proof.
  intros Hm.
  pose proof (front_inv_run n reqs mem sched w m Hm) as Hf.
  pose proof (origin_inv_run n reqs mem sched) as [_ G2].
  unfold front_ok in Hf. split_and!.
  - by intros [Hpc|Hpc]; rewrite Hpc in Hf.
  - intros Hpc. by rewrite Hpc in Hf.
  - intros Hdef Hpc. rewrite Hpc in Hf. destruct Hf as (t & q & Hq & Hnone).
    assert (t ∈ concat reqs) as Hin.
    { apply (G2 w m t Hm). rewrite Hq. left. }
    apply elem_of_concat in Hin as (r & Hr & Ht).
    destruct (Hdef r t Hr Ht) as [v Hv]. congruence.
Qed.

Lemma front_and_pop_never_on_empty_witness :
  ∃ m, m_vpThreads (pool (run (replicate 7 (Caller 0) ++ replicate 2 (Worker 0))
                            one_start)) !! 0 = Some m ∧
       exec_at m = XFront ∧ functionsQueue m ≠ [].
Proof.
  exists {| m_mxQueue := Some (Worker 0); functionsQueue := [one_task];
            free := false; m_id := 0; exec_at := XFront |}.
  split_and!; [reflexivity..|].
  apply (front_and_pop_never_on_empty 1 [[one_task]] one_record
           (replicate 7 (Caller 0) ++ replicate 2 (Worker 0)) 0
           {| m_mxQueue := Some (Worker 0); functionsQueue := [one_task];
              free := false; m_id := 0; exec_at := XFront |} eq_refl).
  by left.
Defined.

(** ** A pool without workers *)

(** X9: a pool constructed with a count of zero never accepts a request.
    Whatever the schedule, every caller keeps all its requests and is either
    about to call [evaluate], at the loop test of line 54, or holding the
    [false] that [evaluate] returned: the retry loop of lines 181-183 never
    ends; and no record is ever written. *)
Theorem zero_workers_never_schedule (reqs : list (list task))
    (mem : list evalStruct) (sched : list thread_id) :
  pool (run sched (start (fresh_pool 0) reqs mem)) = fresh_pool 0 ∧
  vEvals (run sched (start (fresh_pool 0) reqs mem)) = mem ∧
  pending <$> callers (run sched (start (fresh_pool 0) reqs mem)) = reqs ∧
  Forall (λ cl, eval_at cl = ECall ∨ eval_at cl = EScan 0 ∨
                eval_at cl = EReturn false)
    (callers (run sched (start (fresh_pool 0) reqs mem))).
Proof.
  apply (invariant_run (λ s,
    pool s = fresh_pool 0 ∧ vEvals s = mem ∧ pending <$> callers s = reqs ∧
    Forall (λ cl, eval_at cl = ECall ∨ eval_at cl = EScan 0 ∨
                  eval_at cl = EReturn false) (callers s))).
  - split_and!; try done.
    + simpl. rewrite <- list_fmap_compose. by apply list_fmap_id.
    + simpl. apply Forall_fmap, Forall_true. intros r. by left.
  - intros s th s' (Hp & Hmem & Hpend & Hpc) Hstep. destruct th as [c|w].
    + apply step_caller_inv in Hstep as (cl & cl' & p' & Hcl & Hev & ->).
      rewrite Hp in Hev. simpl.
      pose proof (proj1 (Forall_lookup _ _) Hpc c cl Hcl) as Hc.
      assert (pending cl' = pending cl ∧ p' = fresh_pool 0 ∧
              (eval_at cl' = ECall ∨ eval_at cl' = EScan 0 ∨
               eval_at cl' = EReturn false)) as (Hsame & -> & Hpc').
      { destruct cl as [pend pc]. simpl in Hc.
        destruct Hc as [->|[->| ->]]; inv_evaluate_step Hev; simpl; auto. }
      split_and!; try done.
      * rewrite list_fmap_insert, Hsame. rewrite list_insert_id; [done|].
        by rewrite list_lookup_fmap, Hcl.
      * apply Forall_insert; done.
    + apply step_worker_inv in Hstep as (m & m' & mem' & Hm & Hex & ->).
      rewrite Hp in Hm. done.
Qed.

(** ** The caller and one worker taking turns *)

Lemma call_then_serve_run (s : state) (t : task) (r : list task)
    (m : ThreadManager) (mem1 : list evalStruct) :
  callers s !! 0 = Some (caller_at (t :: r) ECall) →
  (0 < m_nThreads (pool s))%Z →
  m_vpThreads (pool s) !! 0 = Some m →
  m = new_ThreadManager (m_id m) →
  body_result t (vEvals s) = Some mem1 →
  run call_then_serve s =
    {| pool := pool s; callers := <[0 := caller_at r ECall]> (callers s);
       vEvals := body_ready t mem1 |}.
Proof.
  intros Hc Hn Hm Hnew Hbody.
  pose proof (lookup_lt_Some _ _ _ Hc) as Hlt.
  pose proof (lookup_lt_Some _ _ _ Hm) as Hw.
  destruct m as [lk q fr id pc]. injection Hnew as -> -> -> ->.
  unfold call_then_serve. cbn [replicate app].
  (* line 182 *)
  rewrite (run_cons _ _ _ (with_caller 0 (caller_at (t :: r) (EScan 0)) (pool s) s))
    by (eapply step_caller_first; [exact Hc|reflexivity]).
  (* lines 54-55 *)
  rewrite (run_cons _ _ _ (with_caller 0 (caller_at (t :: r) (ELock 0)) (pool s) s)).
  2:{ eapply step_caller_next; [done|]. unfold evaluate_step, at_manager.
      cbn [eval_at set_eval_at caller_at pending].
      destruct (Z.ltb_spec (Z.of_nat 0) (m_nThreads (pool s))); [|lia].
      rewrite Hm. cbn. by rewrite list_insert_id, set_vpThreads_id. }
  (* line 56 *)
  rewrite (run_cons _ _ _
    (with_caller 0 (caller_at (t :: r) (EFlip 0))
       (set_vpThreads
          (<[0 := set_mxQueue (Some (Caller 0)) (new_ThreadManager id)]>
             (m_vpThreads (pool s)))
          (pool s)) s)).
  2:{ eapply step_caller_next; [done|]. unfold evaluate_step.
      cbn [eval_at caller_at set_eval_at pending].
      by rewrite (evaluate_step_at _ _ _ _ _ _ Hm). }
  (* lines 57-63 *)
  do 3 (erewrite run_cons;
    [|eapply step_caller_next; [done|]; unfold evaluate_step;
      cbn [eval_at caller_at pending];
      erewrite evaluate_step_at; [reflexivity|];
      cbn [m_vpThreads set_vpThreads];
      rewrite ?list_insert_insert_eq;
      by apply list_lookup_insert_eq]).
  (* line 64 and line 67 *)
  erewrite run_cons by (eapply step_caller_next; [done|reflexivity]).
  erewrite run_cons by (eapply step_caller_next; [done|reflexivity]).
  cbn [tail pending caller_at].
  unfold set_vpThreads. cbn [m_vpThreads m_nThreads].
  rewrite ?list_insert_insert_eq.
  erewrite alter_as_insert by (by apply list_lookup_insert_eq).
  rewrite list_insert_insert_eq.
  cbn [set_mxQueue set_functionsQueue set_free new_ThreadManager
       m_mxQueue functionsQueue free m_id exec_at app].
  (* lines 88-89 *)
  erewrite run_cons.
  2:{ eapply step_worker_first; [by apply list_lookup_insert_eq|reflexivity]. }
  erewrite run_cons.
  2:{ eapply step_worker_next; [cbn; by rewrite length_insert|reflexivity]. }
  (* lines 92-94 *)
  erewrite run_cons.
  2:{ eapply step_worker_next; [cbn; by rewrite length_insert|reflexivity]. }
  (* line 95 *)
  erewrite run_cons.
  2:{ eapply step_worker_next; [cbn; by rewrite length_insert|].
      unfold execute_step. cbn [exec_at set_exec_at vEvals with_caller].
      by rewrite Hbody. }
  (* lines 96-98 *)
  do 4 (erewrite run_cons;
    [|eapply step_worker_next; [cbn; by rewrite length_insert|reflexivity]]).
  unfold run, update_worker, with_caller. cbn.
  rewrite list_insert_insert_eq. f_equal.
  rewrite list_insert_id by done. by destruct (pool s).
Qed.

Lemma run_app (sched1 sched2 : list thread_id) (s : state) :
  run (sched1 ++ sched2) s = run sched2 (run sched1 s).
Proof. unfold run. by rewrite foldl_app. Qed.

Lemma run_tasks_cons (t : task) (r : list task) (mem mem1 : list evalStruct) :
  run_task t mem = Some mem1 → run_tasks (t :: r) mem = run_tasks r mem1.
Proof. intros H. unfold run_tasks. simpl. by rewrite H. Qed.

Lemma run_tasks_head (t : task) (r : list task) (mem mem' : list evalStruct) :
  run_tasks (t :: r) mem = Some mem' →
  ∃ mem1, body_result t mem = Some mem1 ∧ run_tasks r (body_ready t mem1) = Some mem'.
Proof.
  unfold run_tasks, run_task. simpl.
  destruct (body_result t mem) as [mem1|]; simpl; [by eauto|].
  intros H. exfalso. induction r as [|t' r IH]; [done|]. by apply IH.
Qed.

(** X10: with at least one worker, the caller and worker 0 taking turns (one
    whole call of [evaluate], then one whole iteration of [execute]) place
    and run every request in order.  When every task has a value, the run
    ends with nothing left to place, every queue empty, the pool exactly as
    it was constructed, and the records as the tasks run one after the other
    leave them. *)
Theorem serve_in_turn_completes (n : nat) (reqs : list task)
    (mem mem' : list evalStruct) :
  0 < n →
  run_tasks reqs mem = Some mem' →
  run (serve_in_turn (length reqs)) (start (fresh_pool n) [reqs] mem) =
    start (fresh_pool n) [[]] mem'.
Proof.
  intros Hn. revert mem. induction reqs as [|t r IH]; intros mem Hrun.
  - by injection Hrun as ->.
  - apply run_tasks_head in Hrun as (mem1 & Hbody & Hrest).
    cbn [length serve_in_turn replicate concat]. rewrite run_app.
    erewrite (call_then_serve_run _ t r (new_ThreadManager 0) mem1);
      [by apply IH|reflexivity|simpl; lia| |reflexivity|exact Hbody].
    simpl. by apply ctor_loop_lookup.
Qed.

Lemma serve_in_turn_completes_witness :
  run (serve_in_turn 1) one_start =
    start (fresh_pool 1) [[]] [EvalStruct 3 4 7 true myFunc_1].
Proof.
  apply (serve_in_turn_completes 1 [one_task] one_record
           [EvalStruct 3 4 7 true myFunc_1]); [lia|reflexivity].
Defined.

(** ** Once everything is placed and every queue is empty *)

Lemma finished_intro (s : state) :
  (∀ c cl, callers s !! c = Some cl → pending cl = []) → finished s = true.
Proof.
  intros H. unfold finished. apply forallb_forall. intros cl Hin.
  apply list_elem_of_In, list_elem_of_lookup in Hin as [c Hc].
  by rewrite (H c cl Hc).
Qed.

Lemma drained_intro (s : state) :
  (∀ w m, m_vpThreads (pool s) !! w = Some m → functionsQueue m = []) →
  drained s = true.
Proof.
  intros H. unfold drained. apply forallb_forall. intros m Hin.
  apply list_elem_of_In, list_elem_of_lookup in Hin as [w Hw].
  by rewrite (H w m Hw).
Qed.

Lemma quiet_step (s : state) (th : thread_id) (s' : state) :
  owner_inv s → front_inv s →
  finished s = true → drained s = true →
  step th s = Some s' →
  vEvals s' = vEvals s ∧ callers s' = callers s ∧
  finished s' = true ∧ drained s' = true.
Proof.
  intros [_ O2] HF Hfin Hdr Hstep. destruct th as [c|w].
  - apply step_caller_inv in Hstep as (cl & cl' & p' & Hcl & Hev & ->).
    pose proof (finished_spec s c cl Hfin Hcl) as Hp.
    destruct (O2 c cl Hcl) as [Hpc|Hne]; [|done].
    unfold evaluate_step in Hev. by rewrite Hpc, Hp in Hev.
  - apply step_worker_inv in Hstep as (m & m' & mem' & Hm & Hex & ->).
    pose proof (drained_spec s w m Hdr Hm) as Hq.
    pose proof (HF w m Hm) as Hfront. unfold front_ok in Hfront.
    assert (mem' = vEvals s ∧ functionsQueue m' = []) as [-> Hq'].
    { destruct m as [lk q fr id pc]. simpl in *. subst q.
      destruct pc; inv_execute_step Hex; simpl in *; try done.
      all: by (destruct Hfront as (? & ? & ? & ?) || destruct Hfront). }
    simpl. split_and!; try done.
    apply drained_intro. simpl. intros w' m0 Hm0.
    apply list_lookup_insert_Some in Hm0 as [(_ & <- & _)|(_ & Hm0)]; [done|].
    by eapply drained_spec.
Qed.

Lemma quiet_run (n : nat) (reqs : list (list task)) (mem : list evalStruct)
    (sched sched' : list thread_id) :
  finished (run sched (start (fresh_pool n) reqs mem)) = true →
  drained (run sched (start (fresh_pool n) reqs mem)) = true →
  vEvals (run (sched ++ sched') (start (fresh_pool n) reqs mem)) =
    vEvals (run sched (start (fresh_pool n) reqs mem)) ∧
  finished (run (sched ++ sched') (start (fresh_pool n) reqs mem)) = true ∧
  drained (run (sched ++ sched') (start (fresh_pool n) reqs mem)) = true.
Proof.
  intros Hfin Hdr. rewrite run_app.
  pose proof (lock_inv_run n reqs mem sched) as HL.
  pose proof (owner_inv_run n reqs mem sched) as HO.
  pose proof (front_inv_run n reqs mem sched) as HF.
  generalize dependent (run sched (start (fresh_pool n) reqs mem)).
  intros s1 Hfin Hdr HL HO HF.
  cut ((lock_inv (run sched' s1) ∧ owner_inv (run sched' s1) ∧
        front_inv (run sched' s1)) ∧
       vEvals (run sched' s1) = vEvals s1 ∧
       finished (run sched' s1) = true ∧ drained (run sched' s1) = true).
  { intros [_ H]. exact H. }
  apply (invariant_run (λ s,
    (lock_inv s ∧ owner_inv s ∧ front_inv s) ∧
    vEvals s = vEvals s1 ∧ finished s = true ∧ drained s = true)); [done|].
  intros s th s' [(IL & IO & IF) (Imem & Ifin & Idr)] Hstep.
  destruct (quiet_step s th s' IO IF Ifin Idr Hstep) as (Hmem & _ & Hfin' & Hdr').
  split_and!; try done.
  - by eapply lock_inv_step.
  - by eapply owner_inv_step.
  - by eapply front_inv_step.
  - by rewrite Hmem.
Qed.

(** X11: whoever dispatches, a state in which every caller has placed all
    its requests and every queue is empty is final for the records: whatever
    runs afterwards, no record changes, nothing is left to place and every
    queue stays empty; and in such a state no caller can move, every worker
    being left to take and release its own mutex. *)
Theorem quiet_state_is_final (n : nat) (reqs : list (list task))
    (mem : list evalStruct) (sched sched' : list thread_id) :
  finished (run sched (start (fresh_pool n) reqs mem)) = true →
  drained (run sched (start (fresh_pool n) reqs mem)) = true →
  vEvals (run (sched ++ sched') (start (fresh_pool n) reqs mem)) =
    vEvals (run sched (start (fresh_pool n) reqs mem)) ∧
  finished (run (sched ++ sched') (start (fresh_pool n) reqs mem)) = true ∧
  drained (run (sched ++ sched') (start (fresh_pool n) reqs mem)) = true ∧
  ∀ c, step (Caller c) (run sched (start (fresh_pool n) reqs mem)) = None.
Proof.
  intros Hfin Hdr.
  destruct (quiet_run n reqs mem sched sched' Hfin Hdr) as (H1 & H2 & H3).
  split_and!; try done. intros c.
  pose proof (owner_inv_run n reqs mem sched) as [_ O2].
  unfold step.
  destruct (callers (run sched (start (fresh_pool n) reqs mem)) !! c)
    as [cl|] eqn:Hc; [|done].
  simpl. pose proof (finished_spec _ c cl Hfin Hc) as Hp.
  destruct (O2 c cl Hc) as [Hpc|Hne]; [|done].
  unfold evaluate_step. by rewrite Hpc, Hp.
Qed.

Lemma quiet_state_is_final_witness :
  vEvals (run (serve_in_turn 1 ++ [Worker 0; Caller 0; Worker 0]) one_start) =
    [EvalStruct 3 4 7 true myFunc_1].
Proof.
  destruct (quiet_state_is_final 1 [[one_task]] one_record (serve_in_turn 1)
              [Worker 0; Caller 0; Worker 0] eq_refl eq_refl) as (H & _ & _).
  etrans; [exact H|reflexivity].
Defined.

(** ** No accepted task is lost *)

Lemma start_task_inv_all (n : nat) (reqs : list (list task)) (mem : list evalStruct) :
  (∀ t, t ∈ concat reqs → cap_result t < length mem ∧ cap_ready t < length mem) →
  task_inv (concat reqs) (start (fresh_pool n) reqs mem).
Proof.
  intros Hrange.
  assert (∀ t, waiting (callers (start (fresh_pool n) reqs mem)) t ↔ t ∈ concat reqs)
    as Hw.
  { intros t. rewrite elem_of_concat. split.
    - intros (c & cl & Hc & Ht). simpl in Hc.
      apply list_lookup_fmap_Some in Hc as (r & -> & Hr).
      exists r. split; [by eapply list_elem_of_lookup_2|done].
    - intros (r & Hr & Ht). apply list_elem_of_lookup in Hr as [c Hc].
      exists c, {| pending := r; eval_at := ECall |}. split; [|done].
      simpl. by rewrite list_lookup_fmap, Hc. }
  assert (∀ t, ¬ queued (m_vpThreads (pool (start (fresh_pool n) reqs mem))) t) as Hq.
  { intros t (w & m & Hm & Ht). apply ctor_loop_lookup_Some in Hm as [_ ->].
    simpl in Ht. by apply elem_of_nil in Ht. }
  split.
  - done.
  - intros t Ht. by apply Hw.
  - intros t Ht. by destruct (Hq t).
  - intros t Ht. left. by apply Hw.
  - intros c cl t r Hc _ Hpc. simpl in Hc.
    by apply list_lookup_fmap_Some in Hc as (r' & -> & _).
  - intros w m Hm. apply ctor_loop_lookup_Some in Hm as [_ ->]. done.
Qed.

(** X12: whoever dispatches, no accepted task is lost.  For a pool of any
    size and any requests whose references are valid (requests that share a
    result slot storing the same value): in every reachable state each
    request is still with its caller, or in the queue of a worker, or done,
    its result stored and its ready flag set; so once every caller has placed
    everything and every queue is empty, every request is done.  Two callers
    that claim the same worker at once lose nothing either: the worker
    serves both tasks. *)
Theorem accepted_tasks_are_run (n : nat) (reqs : list (list task))
    (mem : list evalStruct) (sched : list thread_id) :
  compatible (concat reqs) →
  (∀ t, t ∈ concat reqs → cap_result t < length mem ∧ cap_ready t < length mem) →
  (∀ t, t ∈ concat reqs →
     waiting (callers (run sched (start (fresh_pool n) reqs mem))) t ∨
     queued (m_vpThreads (pool (run sched (start (fresh_pool n) reqs mem)))) t ∨
     task_done t (vEvals (run sched (start (fresh_pool n) reqs mem)))) ∧
  (finished (run sched (start (fresh_pool n) reqs mem)) = true →
   drained (run sched (start (fresh_pool n) reqs mem)) = true →
   ∀ t, t ∈ concat reqs →
     ∃ v, cap_f t (cap_param1 t) (cap_param2 t) = Some v ∧
          result <$> vEvals (run sched (start (fresh_pool n) reqs mem))
            !! cap_result t = Some v ∧
          readyFlag <$> vEvals (run sched (start (fresh_pool n) reqs mem))
            !! cap_ready t = Some true).
Proof.
  intros Hcompat Hrange.
  assert (task_inv (concat reqs) (run sched (start (fresh_pool n) reqs mem)))
    as [_ _ _ T4 _ _].
  { apply invariant_run; [by apply start_task_inv_all|].
    intros s th s'. by apply task_inv_step. }
  split; [exact T4|]. intros Hfin Hdr t Ht.
  destruct (T4 t Ht) as [(c & cl & Hc & Hin)|[(w & m & Hm & Hin)|Hdone]].
  - rewrite (finished_spec _ _ _ Hfin Hc) in Hin. by apply elem_of_nil in Hin.
  - rewrite (drained_spec _ _ _ Hdr Hm) in Hin. by apply elem_of_nil in Hin.
  - destruct Hdone as [(v & Hv & Hres) Hrdy]. eauto.
Qed.

Lemma accepted_tasks_are_run_witness :
  functionsQueue <$> m_vpThreads (pool (run race_schedule race_start)) =
    [[race_task_0; race_task_1]] ∧
  result <$> vEvals (run (race_then_serve ++ [Caller 0; Caller 1] ++
                            replicate 8 (Worker 0)) race_start) !! 1 = Some 4%Z ∧
  readyFlag <$> vEvals (run (race_then_serve ++ [Caller 0; Caller 1] ++
                            replicate 8 (Worker 0)) race_start) !! 1 = Some true.
Proof.
  split; [reflexivity|].
  assert (compatible (concat [[race_task_0]; [race_task_1]])) as Hc.
  { intros t t' Ht Ht' Heq. simpl in Ht, Ht'.
    rewrite !elem_of_cons, elem_of_nil in Ht, Ht'.
    destruct Ht as [->|[->|[]]], Ht' as [->|[->|[]]]; done. }
  assert (∀ t, t ∈ concat [[race_task_0]; [race_task_1]] →
            cap_result t < length race_records ∧ cap_ready t < length race_records)
    as Hr.
  { intros t Ht. simpl in Ht. rewrite !elem_of_cons, elem_of_nil in Ht.
    destruct Ht as [->|[->|[]]]; simpl; lia. }
  destruct (accepted_tasks_are_run 1 [[race_task_0]; [race_task_1]] race_records
              (race_then_serve ++ [Caller 0; Caller 1] ++ replicate 8 (Worker 0))
              Hc Hr) as [_ H].
  destruct (H eq_refl eq_refl race_task_1) as (v & Hv & Hres & Hrdy).
  { simpl. right. left. }
  injection Hv as <-. split; [exact Hres|exact Hrdy].
Defined.

(** ** A set ready flag comes with the result, whoever dispatches *)

(** X22: the contract of line 50, for a pool of any size and any number of
    dispatching threads.  When the requests have valid references, requests
    that share a ready flag share the result slot and store the same value
    in it, and the ready flags they refer to are false at the start: in
    every reachable state a request whose ready flag is true has the value
    of its function on its parameters in its result slot. *)
Theorem ready_implies_result (n : nat) (reqs : list (list task))
    (mem : list evalStruct) (sched : list thread_id) (t : task) :
  compatible (concat reqs) →
  paired (concat reqs) →
  (∀ t, t ∈ concat reqs → cap_result t < length mem ∧ cap_ready t < length mem) →
  (∀ t, t ∈ concat reqs → readyFlag <$> mem !! cap_ready t = Some false) →
  t ∈ concat reqs →
  readyFlag <$> vEvals (run sched (start (fresh_pool n) reqs mem)) !! cap_ready t
    = Some true →
  ∃ v, cap_f t (cap_param1 t) (cap_param2 t) = Some v ∧
       result <$> vEvals (run sched (start (fresh_pool n) reqs mem)) !! cap_result t
         = Some v.
Proof.
  intros Hcompat Hpaired Hrange Hclear Ht Hready.
  assert (task_inv (concat reqs) (run sched (start (fresh_pool n) reqs mem)) ∧
          ready_inv (concat reqs) (run sched (start (fresh_pool n) reqs mem)))
    as [_ HR].
  { apply (invariant_run (λ s, task_inv (concat reqs) s ∧ ready_inv (concat reqs) s)).
    - split; [by apply start_task_inv_all|].
      intros t' Ht' Hr. simpl in Hr. rewrite (Hclear t' Ht') in Hr. done.
    - intros s th s' [HT HR] Hstep. split.
      + by eapply task_inv_step.
      + by eapply ready_inv_step. }
  exact (HR t Ht Hready).
Qed.

Lemma ready_implies_result_witness :
  result <$> vEvals (run race_then_serve race_start) !! 0 = Some 7%Z.
Proof.
  assert (∀ t, t ∈ concat [[race_task_0]; [race_task_1]] →
            t = race_task_0 ∨ t = race_task_1) as Hin.
  { intros t Ht. simpl in Ht. rewrite !elem_of_cons, elem_of_nil in Ht.
    destruct Ht as [->|[->|[]]]; auto. }
  destruct (ready_implies_result 1 [[race_task_0]; [race_task_1]] race_records
              race_then_serve race_task_0) as (v & Hv & Hres).
  - intros t t' Ht Ht' Heq.
    destruct (Hin t Ht) as [-> | ->], (Hin t' Ht') as [-> | ->]; done.
  - intros t t' Ht Ht' Heq.
    destruct (Hin t Ht) as [-> | ->], (Hin t' Ht') as [-> | ->]; done.
  - intros t Ht. destruct (Hin t Ht) as [-> | ->]; simpl; lia.
  - intros t Ht. destruct (Hin t Ht) as [-> | ->]; reflexivity.
  - simpl. left.
  - reflexivity.
  - injection Hv as <-. exact Hres.
Defined.

(** ** [evaluate] at a free worker whose mutex is taken *)

Lemma evaluate_loop_blocked (k i0 : nat) (t : task) (p : ThreadPool)
    (i : nat) (m : ThreadManager) (th : thread_id) :
  i0 ≤ i < i0 + k →
  m_vpThreads p !! i = Some m →
  free m = true →
  m_mxQueue m = Some th →
  (∀ j m', i0 ≤ j < i → m_vpThreads p !! j = Some m' → free m' = false) →
  evaluate_loop k i0 t p = Blocked i.
Proof.
  revert i0. induction k as [|k IH]; intros i0 Hi Hm Hf Hl Hbusy; [lia|].
  simpl. destruct (decide (i0 = i)) as [->|Hne].
  - by rewrite Hm, Hf, Hl.
  - destruct (m_vpThreads p !! i0) as [m0|] eqn:H0.
    + rewrite (Hbusy i0 m0) by (done || lia).
      apply IH; [lia|done..|]. intros j m' Hj. apply Hbusy. lia.
    + apply lookup_ge_None in H0. apply lookup_lt_Some in Hm. lia.
Qed.

(** X13: [evaluate] does not pass over a free worker whose mutex is taken.
    When the first worker whose flag is true has its mutex owned by another
    thread, the call stops at the [unique_lock] of line 56 for that worker,
    whether or not a later worker is free, and the caller cannot move until
    the mutex is released; the pool and the records are untouched. *)
Theorem evaluate_waits_at_first_free (s : state) (c : nat) (t : task)
    (r : list task) (i : nat) (m : ThreadManager) (th : thread_id) :
  pool_wf (pool s) →
  callers s !! c = Some (caller_at (t :: r) ECall) →
  first_free (m_vpThreads (pool s)) = Some (i, m) →
  m_mxQueue m = Some th →
  evaluate (cap_f t) (cap_param1 t) (cap_param2 t) (cap_result t) (cap_ready t)
    (pool s) = Blocked i ∧
  ∃ k, run (replicate k (Caller c)) s =
         with_caller c (caller_at (t :: r) (ELock i)) (pool s) s ∧
       step (Caller c) (run (replicate k (Caller c)) s) = None.
Proof.
  intros Hwf Hc Hfind Hlk.
  apply list_find_Some in Hfind as (Hi & Hf & Hbefore).
  assert (evaluate (cap_f t) (cap_param1 t) (cap_param2 t) (cap_result t)
            (cap_ready t) (pool s) = Blocked i) as Hev.
  { unfold evaluate. apply (evaluate_loop_blocked _ _ _ _ i m th); try done.
    - pose proof (lookup_lt_Some _ _ _ Hi). unfold pool_wf in Hwf.
      rewrite Hwf, Nat2Z.id. lia.
    - intros j m' [_ Hj] Hm'. specialize (Hbefore j m' Hm' Hj).
      by destruct (free m'). }
  split; [exact Hev|].
  pose proof (evaluate_alone s c t r Hwf Hc) as H. by rewrite Hev in H.
Qed.

Lemma evaluate_waits_at_first_free_witness :
  evaluate myFunc_1 3 4 0 0
    (pool (run [Worker 0] (start (fresh_pool 2) [[one_task]] one_record)))
  = Blocked 0.
Proof.
  apply (evaluate_waits_at_first_free
           (run [Worker 0] (start (fresh_pool 2) [[one_task]] one_record))
           0 one_task [] 0
           {| m_mxQueue := Some (Worker 0); functionsQueue := []; free := true;
              m_id := 0; exec_at := XEmpty |} (Worker 0));
    reflexivity.
Defined.

(** ** [at] stays within the vector *)

Lemma evaluate_loop_in_range (k i0 : nat) (t : task) (p : ThreadPool) :
  i0 + k ≤ length (m_vpThreads p) →
  evaluate_loop k i0 t p ≠ Throw_out_of_range.
Proof.
  revert i0. induction k as [|k IH]; intros i0 Hlen; [done|].
  simpl. destruct (m_vpThreads p !! i0) as [m0|] eqn:H0.
  - destruct (free m0); [by destruct (m_mxQueue m0)|]. apply IH. lia.
  - apply lookup_ge_None in H0. lia.
Qed.

(** X14: the [at] calls of [evaluate] never throw on a pool as the
    constructor leaves it.  On a pool whose counter equals the length of its
    vector the call, run alone, returns or waits for a mutex; and whoever
    dispatches, in no state reachable from a constructed pool has a caller
    left [evaluate] through [std::out_of_range]. *)
Theorem at_stays_in_range (f : func_t) (p1 p2 : Z) (res rdy : nat) (p : ThreadPool) :
  pool_wf p →
  evaluate f p1 p2 res rdy p ≠ Throw_out_of_range ∧
  ∀ n reqs mem sched c cl,
    callers (run sched (start (fresh_pool n) reqs mem)) !! c = Some cl →
    eval_at cl ≠ EThrow.
Proof.
  intros Hwf. split.
  - unfold evaluate. apply evaluate_loop_in_range.
    unfold pool_wf in Hwf. rewrite Hwf, Nat2Z.id. lia.
  - intros n reqs mem sched. apply bounds_inv_run.
Qed.

Lemma at_stays_in_range_witness :
  evaluate myFunc_1 3 4 0 0 busy_pool ≠ Throw_out_of_range.
Proof.
  apply (at_stays_in_range myFunc_1 3 4 0 0 busy_pool). reflexivity.
Defined.

(** ** The sample functions *)

(** X15: on [int] arguments, subtraction undoes addition and division undoes
    multiplication: when [myFunc_1 a b] has the value [c], [myFunc_2 c b] is
    [a]; when [myFunc_3 a b] has the value [c] and [b] is not zero,
    [myFunc_4 c b] is [a]. *)
Theorem sample_functions_invert (a b c : Z) :
  Int.in_range a = true →
  (myFunc_1 a b = Some c → myFunc_2 c b = Some a) ∧
  (myFunc_3 a b = Some c → b ≠ 0%Z → myFunc_4 c b = Some a).
Proof.
  intros Ha. unfold myFunc_1, myFunc_2, myFunc_3, myFunc_4, Int.of_Z.
  split.
  - destruct (Int.in_range (a + b)); [|done]. intros [= <-].
    replace (a + b - b)%Z with a by lia. by rewrite Ha.
  - destruct (Int.in_range (a * b)); [|done]. intros [= <-] Hb.
    destruct (Z.eqb_spec b 0); [done|].
    rewrite Z.quot_mul by done. by rewrite Ha.
Qed.

Lemma sample_functions_invert_witness :
  myFunc_2 7%Z 4%Z = Some 3%Z ∧ myFunc_4 12%Z 4%Z = Some 3%Z.
Proof.
  destruct (sample_functions_invert 3 4 7 eq_refl) as [H1 _].
  destruct (sample_functions_invert 3 4 12 eq_refl) as [_ H2].
  split; [apply H1; reflexivity|apply H2; [reflexivity|discriminate]].
Defined.

(** X16: on [int] arguments [myFunc_4] has no value in exactly two cases, a
    zero divisor and [INT_MIN / -1]; otherwise its value [q] is the quotient
    truncated towards zero: [a - q * b] is smaller than [b] in absolute value
    and is zero or has the sign of [a]. *)
Theorem myFunc_4_truncates (a b : Z) :
  Int.in_range a = true → Int.in_range b = true →
  (myFunc_4 a b = None ↔ b = 0%Z ∨ (a = Int.min ∧ b = (-1)%Z)) ∧
  (∀ q, myFunc_4 a b = Some q →
     (Z.abs (a - q * b) < Z.abs b)%Z ∧
     (0 ≤ a → 0 ≤ a - q * b)%Z ∧ (a ≤ 0 → a - q * b ≤ 0)%Z).
Proof.
  unfold Int.in_range, Int.min, Int.max. intros Ha Hb.
  apply andb_true_iff in Ha as [Ha1 Ha2], Hb as [Hb1 Hb2].
  apply Z.leb_le in Ha1, Ha2, Hb1, Hb2.
  unfold myFunc_4, Int.of_Z, Int.in_range, Int.min, Int.max.
  destruct (Z.eqb_spec b 0) as [->|Hb0].
  - split; [split; [by left|done]|]. intros q [=].
  - pose proof (Z.quot_rem' a b) as Hqr.
    pose proof (Z.rem_bound_abs a b Hb0) as Hrem.
    assert (Z.abs (a ÷ b) ≤ Z.abs a)%Z as Hq.
    { rewrite <- Z.quot_abs by done.
      apply Z.quot_le_upper_bound; [lia|]. nia. }
    split.
    + destruct (decide (a = (- 2 ^ 31)%Z ∧ b = (-1)%Z)) as [[-> ->]|Hne].
      * split; [by right|]. intros _. reflexivity.
      * split; [|by intros [?|?]].
        intros Hnone. exfalso.
        destruct (- 2 ^ 31 <=? a ÷ b)%Z eqn:H1; [|apply Z.leb_gt in H1; lia].
        destruct (a ÷ b <=? 2 ^ 31 - 1)%Z eqn:H2; [done|].
        apply Z.leb_gt in H2. clear Hnone.
        assert (a = (- 2 ^ 31)%Z) as -> by lia.
        apply Hne. split; [done|].
        assert (Z.abs b = 1)%Z; [|lia].
        destruct (decide (Z.abs b = 1)%Z) as [|Hb1']; [done|].
        assert (2 ≤ Z.abs b)%Z by lia.
        assert (Z.abs ((- 2 ^ 31) ÷ b) * Z.abs b ≤ 2 ^ 31)%Z; [|nia].
        rewrite <- Z.abs_mul. nia.
    + intros q Hsome.
      destruct ((- 2 ^ 31 <=? a ÷ b)%Z && (a ÷ b <=? 2 ^ 31 - 1)%Z); [|done].
      injection Hsome as <-.
      replace (a - a ÷ b * b)%Z with (Z.rem a b) by lia.
      split_and!; [done| |].
      * intros H0. by apply Z.rem_nonneg.
      * intros H0. by apply Z.rem_nonpos.
Qed.

Lemma myFunc_4_truncates_witness :
  myFunc_4 Int.min (-1)%Z = None ∧ myFunc_4 (-7)%Z 2%Z = Some (-3)%Z.
Proof.
  split.
  - apply (proj1 (myFunc_4_truncates Int.min (-1) eq_refl eq_refl)).
    right. split; reflexivity.
  - reflexivity.
Defined.

(** ** [dump] *)

Lemma dump_loop_spec (show : evalStruct → string) (k i : nat) (v : list evalStruct) :
  i ≤ length v →
  dump_loop show k i v =
    if decide (i + k ≤ length v)
    then ((λ e, setw valWidth (show e)) <$> take k (drop i v), Some tt)
    else ((λ e, setw valWidth (show e)) <$> drop i v, None).
Proof.
  revert i. induction k as [|k IH]; intros i Hi.
  - simpl. by rewrite decide_True by lia.
  - cbn [dump_loop]. destruct (v !! i) as [e|] eqn:He.
    + pose proof (lookup_lt_Some _ _ _ He) as Hlt.
      rewrite IH by lia. rewrite (drop_S _ _ _ He).
      destruct (decide (S i + k ≤ length v)), (decide (i + S k ≤ length v));
        try lia; reflexivity.
    + apply lookup_ge_None in He. rewrite decide_False by lia.
      by rewrite drop_ge.
Qed.

Lemma dump_row_spec (title : string) (show : evalStruct → string)
    (v : list evalStruct) :
  dump_row title show v =
    if decide (nEvaluations ≤ length v)
    then (row title show v, Some tt)
    else (setw titleWidth title :: ((λ e, setw valWidth (show e)) <$> v), None).
Proof.
  unfold dump_row, row, cells. cbn [mbind printed_bind LOG].
  rewrite dump_loop_spec by lia. rewrite drop_0. simpl.
  destruct (decide (nEvaluations ≤ length v)); reflexivity.
Qed.

Lemma dump_spec (v : list evalStruct) :
  dump v =
    if decide (nEvaluations ≤ length v)
    then (row "param1=" (λ e, show_int (param1 e)) v ++
          row "param2=" (λ e, show_int (param2 e)) v ++
          row "results=" (λ e, show_int (result e)) v ++
          row "readyFlags=" (λ e, show_bool (readyFlag e)) v, Some tt)
    else (setw titleWidth "param1=" ::
            ((λ e, setw valWidth (show_int (param1 e))) <$> v), None).
Proof.
  unfold dump. rewrite !dump_row_spec.
  destruct (decide (nEvaluations ≤ length v)); reflexivity.
Qed.

(** X17: [dump] reads the records 0 to [nEvaluations - 1] whatever the size
    of the vector it is given.  It leaves through the [std::out_of_range] of
    [at] exactly when the vector holds fewer than [nEvaluations] records, and
    then it has printed the title of the first row and the [param1] of every
    record there is, and nothing else. *)
Theorem dump_out_of_range (v : list evalStruct) :
  ((dump v).2 = None ↔ length v < nEvaluations) ∧
  (length v < nEvaluations →
   (dump v).1 =
     setw titleWidth "param1=" ::
       ((λ e, setw valWidth (show_int (param1 e))) <$> v)).
Proof.
  rewrite dump_spec. destruct (decide (nEvaluations ≤ length v)); simpl.
  - split; [split; [done|lia]|lia].
  - split; [split; [lia|done]|done].
Qed.

Lemma cells_ext (show show' : evalStruct → string) (v v' : list evalStruct)
    (key : evalStruct → Z * Z * Z * bool) (g : Z * Z * Z * bool → string) :
  (∀ e, show e = g (key e)) → (∀ e, show' e = g (key e)) →
  key <$> take nEvaluations v = key <$> take nEvaluations v' →
  cells show v = cells show' v'.
Proof.
  intros Hs Hs' Hkey. unfold cells.
  rewrite (list_fmap_ext _ (λ e, setw valWidth (g (key e))) (take nEvaluations v))
    by (intros; by rewrite Hs).
  rewrite (list_fmap_ext _ (λ e, setw valWidth (g (key e))) (take nEvaluations v'))
    by (intros; by rewrite Hs').
  change (λ e, setw valWidth (g (key e))) with ((λ k, setw valWidth (g k)) ∘ key).
  by rewrite !list_fmap_compose, Hkey.
Qed.

Lemma dump_ext (v v' : list evalStruct) :
  nEvaluations ≤ length v →
  shown <$> take nEvaluations v = shown <$> take nEvaluations v' →
  dump v = dump v'.
Proof.
  intros Hlen Heq.
  assert (nEvaluations ≤ length v') as Hlen'.
  { apply (f_equal length) in Heq. rewrite !length_fmap, !length_take in Heq. lia. }
  rewrite !dump_spec, !decide_True by done.
  assert (∀ title show (g : Z * Z * Z * bool → string),
            (∀ e, show e = g (shown e)) →
            row title show v = row title show v') as Hrow.
  { intros title show g Hg. unfold row. do 2 f_equal.
    by apply (cells_ext _ _ v v' shown g). }
  rewrite (Hrow "param1=" _ (λ k, show_int k.1.1.1)) by done.
  rewrite (Hrow "param2=" _ (λ k, show_int k.1.1.2)) by done.
  rewrite (Hrow "results=" _ (λ k, show_int k.1.2)) by done.
  by rewrite (Hrow "readyFlags=" _ (λ k, show_bool k.2)).
Qed.

(** X18: [dump] shows the first [nEvaluations] records and, of each, the
    four fields [param1], [param2], [result] and [readyFlag] only: two
    vectors whose first [nEvaluations] records agree on those fields give the
    same output, whatever their functions and whatever records follow; and
    the output is the four rows in that order, each a title, the
    [nEvaluations] cells and the end of the line. *)
Theorem dump_shows_first_records (v v' : list evalStruct) :
  nEvaluations ≤ length v →
  shown <$> take nEvaluations v = shown <$> take nEvaluations v' →
  dump v = dump v' ∧
  dump v =
    (row "param1=" (λ e, show_int (param1 e)) v ++
     row "param2=" (λ e, show_int (param2 e)) v ++
     row "results=" (λ e, show_int (result e)) v ++
     row "readyFlags=" (λ e, show_bool (readyFlag e)) v, Some tt).
Proof.
  intros Hlen Heq. split; [by apply dump_ext|].
  by rewrite dump_spec, decide_True.
Qed.

Lemma dump_shows_first_records_witness :
  dump (vEvals_init ++ [EvalStruct 1 2 3 true myFunc_1]) = dump vEvals_init.
Proof.
  symmetry.
  apply (dump_shows_first_records vEvals_init
           (vEvals_init ++ [EvalStruct 1 2 3 true myFunc_1])).
  - reflexivity.
  - reflexivity.
Defined.

(** *** The width of a cell *)

Lemma length_append (s1 s2 : string) :
  String.length (s1 +:+ s2) = String.length s1 + String.length s2.
Proof. induction s1 as [|c s1 IH]; simpl; [done|by rewrite IH]. Qed.

Lemma length_spaces (n : nat) : String.length (spaces n) = n.
Proof.
  induction n as [|n IH]; [done|].
  cbn [spaces]. by rewrite length_append, IH.
Qed.

Lemma length_setw (w : nat) (text : string) :
  String.length (setw w text) = w `max` String.length text.
Proof. unfold setw. rewrite length_append, length_spaces. lia. Qed.

Lemma pretty_N_go_grows (x : N) (s : string) :
  String.length s ≤ String.length (pretty_N_go x s).
Proof.
  revert s. induction (N.lt_wf_0 x) as [x _ IH]; intros s.
  destruct (decide (x = 0)%N) as [->|Hx]; [by rewrite pretty_N_go_0|].
  rewrite pretty_N_go_step by lia.
  etrans; [|apply IH; apply N.div_lt; lia]. simpl. lia.
Qed.

Lemma pretty_N_go_digits (d : nat) (x : N) (s : string) :
  ((x < 10 ^ N.of_nat d)%N →
     String.length (pretty_N_go x s) ≤ String.length s + d) ∧
  ((10 ^ N.of_nat d ≤ x)%N →
     String.length s + S d ≤ String.length (pretty_N_go x s)).
Proof.
  revert x s. induction d as [|d IH]; intros x s.
  - split.
    + intros Hx. assert (x = 0%N) as -> by (simpl in Hx; lia).
      rewrite pretty_N_go_0. lia.
    + intros Hx. simpl in Hx. rewrite pretty_N_go_step by lia.
      etrans; [|apply pretty_N_go_grows]. simpl. lia.
  - rewrite Nat2N.inj_succ, N.pow_succ_r'. split.
    + intros Hx. destruct (decide (x = 0)%N) as [->|Hx0].
      { rewrite pretty_N_go_0. lia. }
      rewrite pretty_N_go_step by lia.
      etrans; [apply IH; apply N.Div0.div_lt_upper_bound; lia|]. simpl. lia.
    + intros Hx. assert (10 ^ N.of_nat d ≠ 0)%N by (by apply N.pow_nonzero).
      rewrite pretty_N_go_step by lia.
      etrans; [|apply IH; apply N.div_le_lower_bound; lia]. simpl. lia.
Qed.

Lemma pretty_pos_length (d : nat) (p : positive) :
  ((N.pos p < 10 ^ N.of_nat d)%N → String.length (pretty (N.pos p)) ≤ d) ∧
  ((10 ^ N.of_nat d ≤ N.pos p)%N → S d ≤ String.length (pretty (N.pos p))).
Proof.
  unfold pretty, pretty_N. rewrite decide_False by done.
  destruct (pretty_N_go_digits d (N.pos p) EmptyString) as [H1 H2].
  split; intros H; [apply H1 in H|apply H2 in H]; simpl in H; lia.
Qed.

Lemma show_int_fits (z : Z) : String.length (show_int z) ≤ valWidth ↔ fits z.
Proof.
  unfold show_int, fits, valWidth, pretty, pretty_Z. destruct z as [|p|p].
  - simpl. split; [lia|]. intros _. lia.
  - change (pretty p) with (pretty (N.pos p)).
    destruct (pretty_pos_length 4 p) as [H1 H2].
    change (10 ^ N.of_nat 4)%N with 10000%N in *. split.
    + intros H. destruct (decide (N.pos p < 10000)%N); [lia|].
      assert (10000 ≤ N.pos p)%N as H' by lia. apply H2 in H'. lia.
    + intros H. apply H1. lia.
  - change (pretty p) with (pretty (N.pos p)).
    rewrite length_append. simpl.
    destruct (pretty_pos_length 3 p) as [H1 H2].
    change (10 ^ N.of_nat 3)%N with 1000%N in *. split.
    + intros H. destruct (decide (N.pos p < 1000)%N); [lia|].
      assert (1000 ≤ N.pos p)%N as H' by lia. apply H2 in H'. lia.
    + intros H. assert (N.pos p < 1000)%N as H' by lia. apply H1 in H'. lia.
Qed.

Lemma cell_width (z : Z) :
  String.length (setw valWidth (show_int z)) = valWidth ↔ fits z.
Proof. rewrite length_setw, <- show_int_fits. lia. Qed.

Lemma row_widths (title : string) (show : evalStruct → string) (v : list evalStruct) :
  String.length title ≤ titleWidth →
  nEvaluations ≤ length v →
  String.length <$> row title show v =
    titleWidth :: replicate nEvaluations valWidth ++ [1] ↔
  ∀ e, e ∈ take nEvaluations v → String.length (show e) ≤ valWidth.
Proof.
  intros Ht Hv. unfold row, cells.
  rewrite fmap_cons, fmap_app, <- list_fmap_compose, length_setw.
  replace (titleWidth `max` String.length title) with titleWidth by lia.
  cbn [fmap list_fmap endl String.length].
  assert (length (take nEvaluations v) = nEvaluations) as Hlen
    by (rewrite length_take; lia).
  split.
  - intros H e He. injection H as H.
    match type of H with _ = ?l =>
      change l with (replicate nEvaluations valWidth ++ [1]) in H
    end.
    apply app_inv_tail in H.
    apply list_elem_of_lookup in He as [i Hi].
    apply (f_equal (λ l, l !! i)) in H. cbv beta in H.
    rewrite list_lookup_fmap, Hi, lookup_replicate_2 in H
      by (apply lookup_lt_Some in Hi; by rewrite Hlen in Hi).
    injection H as H. rewrite length_setw in H. lia.
  - intros H. do 2 f_equal. rewrite <- Hlen at 2.
    rewrite <- (const_fmap (λ _ : evalStruct, valWidth)) by done.
    apply list_fmap_ext. intros i e Hi. simpl. rewrite length_setw.
    specialize (H e (list_elem_of_lookup_2 _ _ _ Hi)). lia.
Qed.

(** X19: the table [dump] prints has straight columns exactly when every
    [int] it shows is between -999 and 9999.  On a vector of at least
    [nEvaluations] records every row is a title of [titleWidth] characters,
    [nEvaluations] cells of [valWidth] characters and the end of the line, if
    and only if the [param1], [param2] and [result] of the first
    [nEvaluations] records are all in that range: [setw] pads a shorter
    number and never cuts a longer one. *)
Theorem dump_columns (v : list evalStruct) :
  nEvaluations ≤ length v →
  String.length <$> (dump v).1 =
    concat (replicate 4 (titleWidth :: replicate nEvaluations valWidth ++ [1])) ↔
  ∀ e, e ∈ take nEvaluations v →
    fits (param1 e) ∧ fits (param2 e) ∧ fits (result e).
Proof.
  intros Hv. rewrite dump_spec, decide_True by done. cbn [fst].
  rewrite !fmap_app.
  pose proof (row_widths "param1=" (λ e, show_int (param1 e)) v) as R1.
  pose proof (row_widths "param2=" (λ e, show_int (param2 e)) v) as R2.
  pose proof (row_widths "results=" (λ e, show_int (result e)) v) as R3.
  pose proof (row_widths "readyFlags=" (λ e, show_bool (readyFlag e)) v) as R4.
  specialize (R1 ltac:(compute; lia) Hv).
  specialize (R2 ltac:(compute; lia) Hv).
  specialize (R3 ltac:(compute; lia) Hv).
  specialize (R4 ltac:(compute; lia) Hv).
  assert (∀ title show, length (String.length <$> row title show v) = 13) as Hlen.
  { intros title show. unfold row, cells.
    rewrite length_fmap. cbn [length].
    rewrite length_app, length_fmap, length_take. cbn [length].
    unfold nEvaluations in *. lia. }
  cbn [replicate concat]. rewrite app_nil_r. split.
  - intros H.
    apply app_inj_1 in H as [H1 H]; [|by rewrite Hlen].
    apply app_inj_1 in H as [H2 H]; [|by rewrite Hlen].
    apply app_inj_1 in H as [H3 H]; [|by rewrite Hlen].
    intros e He. rewrite <- !show_int_fits. split_and!.
    + by apply (proj1 R1).
    + by apply (proj1 R2).
    + by apply (proj1 R3).
  - intros H.
    rewrite (proj2 R1) by (intros e He; apply show_int_fits; by apply H).
    rewrite (proj2 R2) by (intros e He; apply show_int_fits; by apply H).
    rewrite (proj2 R3) by (intros e He; apply show_int_fits; by apply H).
    rewrite (proj2 R4); [done|].
    intros e _. unfold valWidth. destruct (readyFlag e); simpl; lia.
Qed.

Lemma dump_columns_witness :
  String.length <$> (dump vEvals_init).1 =
    concat (replicate 4 (titleWidth :: replicate nEvaluations valWidth ++ [1])).
Proof.
  apply (dump_columns vEvals_init); [reflexivity|].
  intros e He. apply list_elem_of_lookup in He as [i Hi].
  apply lookup_take_Some in Hi as [Hi _].
  apply vEvals_init_lookup in Hi as [Hi ->]. unfold nEvaluations in Hi.
  unfold fits. simpl. lia.
Defined.

(** ** What [main] prints *)

Lemma main_final_shown (sched : list thread_id) :
  finished (run sched main_start) = true →
  drained (run sched main_start) = true →
  shown <$> vEvals (run sched main_start) =
    [(0, 0, 0, true); (2, 1, 1, true); (4, 2, 8, true); (6, 3, 2, true);
     (8, 4, 12, true); (10, 5, 5, true); (12, 6, 72, true); (14, 7, 2, true);
     (16, 8, 24, true); (18, 9, 9, true); (20, 10, 200, true)]%Z.
Proof.
  intros Hfin Hdr.
  destruct (footprint_run (Z.to_nat nThreads) [main_requests] vEvals_init sched)
    as [Hin _].
  fold main_pool in Hin. fold main_start in Hin.
  apply list_eq. intros i. rewrite list_lookup_fmap.
  apply (f_equal (λ l, l !! i)) in Hin. rewrite !list_lookup_fmap in Hin.
  destruct (vEvals_init !! i) as [e0|] eqn:He0.
  - destruct (main_slot_done sched i e0 Hfin Hdr He0) as (e & He & Hr & Hv).
    rewrite He in Hin |- *. simpl in Hin. injection Hin as H1 H2 _.
    unfold shown. simpl. rewrite H1, H2, Hr.
    apply vEvals_init_lookup in He0 as [Hi ->]. unfold nEvaluations in Hi.
    revert Hv. generalize (result e). intros r Hv.
    do 11 (destruct i as [|i]; [vm_compute in Hv; by injection Hv as <-|]).
    lia.
  - destruct (vEvals (run sched main_start) !! i); [done|].
    apply lookup_ge_None in He0.
    change (length vEvals_init) with 11 in He0.
    symmetry. apply lookup_ge_None. simpl. lia.
Qed.

(** X20: what the two calls of [dump] in [main] print.  The first (line 177)
    prints the parameters [(2i, i)] over zero results and zero flags.
    Whatever the interleaving of [main] and the four workers, a call of
    [dump] made once [main] has placed its eleven requests and every queue
    is empty returns normally and prints the same parameters over the
    results 0 1 8 2 12 5 72 2 24 9 200 and eleven flags 1; and it prints
    the same however much later it is made. *)
Theorem main_dumps (sched : list thread_id) :
  finished (run sched main_start) = true →
  drained (run sched main_start) = true →
  (dump vEvals_init).2 = Some tt ∧
  text_of (dump vEvals_init).1 = lines main_initial_dump ∧
  (dump (vEvals (run sched main_start))).2 = Some tt ∧
  text_of (dump (vEvals (run sched main_start))).1 = lines main_final_dump ∧
  ∀ sched', dump (vEvals (run (sched ++ sched') main_start)) =
            dump (vEvals (run sched main_start)).
Proof.
  intros Hfin Hdr.
  pose proof (main_final_shown sched Hfin Hdr) as Hshown.
  assert (dump (vEvals (run sched main_start)) =
          dump ((λ '(a, b, r, f), EvalStruct a b r f myFunc_1) <$>
                  (shown <$> vEvals (run sched main_start)))) as Hdump.
  { apply dump_ext.
    - apply (f_equal length) in Hshown. rewrite length_fmap in Hshown.
      rewrite Hshown. reflexivity.
    - rewrite <- !fmap_take, <- !list_fmap_compose.
      apply list_fmap_ext. by intros i [a b r f g] _. }
  rewrite Hshown in Hdump. split_and!.
  - reflexivity.
  - reflexivity.
  - rewrite Hdump. reflexivity.
  - rewrite Hdump. reflexivity.
  - intros sched'.
    destruct (quiet_run (Z.to_nat nThreads) [main_requests] vEvals_init
                sched sched' Hfin Hdr) as [Hmem _].
    fold main_pool in Hmem. fold main_start in Hmem. by rewrite Hmem.
Qed.

Lemma main_dumps_witness :
  text_of (dump (vEvals (run (round_robin 110) main_start))).1 =
    lines main_final_dump.
Proof.
  assert (finished (run (round_robin 110) main_start) = true) as Hfin
    by (vm_compute; reflexivity).
  assert (drained (run (round_robin 110) main_start) = true) as Hdr
    by (vm_compute; reflexivity).
  destruct (main_dumps (round_robin 110) Hfin Hdr) as (_ & _ & _ & H & _).
  exact H.
Defined.

(** ** The wait loop *)

(** X21: a wake-up that finds the queue empty changes nothing.  A worker
    inside the wait of line 90 that wakes up while its queue is empty and its
    mutex is free takes the mutex, tests the queue at line 89 and goes back
    into the wait, releasing the mutex: after these two statements the whole
    state is as before. *)
Theorem wake_up_on_empty_queue (s : state) (w : nat) (m : ThreadManager) :
  m_vpThreads (pool s) !! w = Some m →
  exec_at m = XWait →
  m_mxQueue m = None →
  functionsQueue m = [] →
  step (Worker w) s =
    Some (update_worker w (set_exec_at XEmpty (set_mxQueue (Some (Worker w)) m))
            (vEvals s) s) ∧
  run [Worker w; Worker w] s = s.
Proof.
  intros Hm Hpc Hlk Hq.
  pose proof (lookup_lt_Some _ _ _ Hm) as Hw.
  assert (step (Worker w) s =
          Some (update_worker w
                  (set_exec_at XEmpty (set_mxQueue (Some (Worker w)) m))
                  (vEvals s) s)) as H1.
  { eapply step_worker_first; [exact Hm|].
    unfold execute_step. by rewrite Hpc, Hlk. }
  split; [exact H1|].
  rewrite (run_cons _ _ _ _ H1).
  erewrite run_cons.
  2:{ apply step_worker_next; [exact Hw|].
      unfold execute_step. cbn [exec_at set_exec_at set_mxQueue functionsQueue].
      rewrite Hq. reflexivity. }
  unfold run, update_worker. cbn [foldl].
  destruct s as [[nthr v] cs mem]. destruct m as [lk q fr id pc].
  simpl in *. subst. by rewrite list_insert_id.
Qed.

Lemma wake_up_on_empty_queue_witness :
  run [Worker 0; Worker 0] (run [Worker 0; Worker 0] one_start) =
    run [Worker 0; Worker 0] one_start.
Proof.
  apply (wake_up_on_empty_queue (run [Worker 0; Worker 0] one_start) 0
           {| m_mxQueue := None; functionsQueue := []; free := true;
              m_id := 0; exec_at := XWait |});
    reflexivity.
Defined.
